(** * HomePage.tsx: the question feed controller

    A shallow embedding of [src/client/src/pages/HomePage.tsx]: the React
    component that loads the question list, derives the displayed order from
    the selected tab, and lets an admin delete a question or ban its author.

    - JavaScript arrays are objects with identity: they live in a heap of
      arrays and the component state holds a reference.  [Array_sort] sorts
      the referenced array in place; spread and [Array_filter] allocate.
    - The handlers are written in a state-and-exception monad over a [World]
      that carries the React state, the heap, and the log of what was sent
      to the outside: network requests, toasts and confirmation prompts.
    - What the outside answers (the stored token, the answer to [confirm],
      the result of each [fetch]) is an [Env].  A body that parses has the
      declared type [ServerResponse].
    - A handler runs from its call to its completion as one step.  What it
      closes over from the render that created it, the viewer and the
      [questions] array, is a [Scope]: a handler that completes after the
      state has moved on is a run with the scope of an earlier world.
    - JavaScript numbers that the component compares are integers (a vote
      count, a millisecond timestamp) or NaN (the time of an invalid date);
      they are modelled as [number], an integer or [NaN].  Only the sign of
      a comparator result is used by the sort, and the sign of a difference
      of two such doubles is the sign of the integer difference. *)

From Stdlib Require Import ZArith Lia.
From stdpp Require Import base list sorting strings.

Local Open Scope string_scope.
Local Open Scope Z_scope.

(** ** Data model (lines 21-41) *)

(** The populated [userId] field of a question. *)
Record Author := {
  author_id : string;          (* userId._id *)
  username : string;
}.

Record Vote := {
  vote_userId : string;        (* votes[i].userId *)
  vote : Z;
}.

Record Question := {
  _id : string;
  title : string;
  description : string;
  userId : Author;
  tags : list string;
  votes : list Vote;
  answers : list string;
  acceptedAnswerId : option string;
  voteCount : Z;
  createdAt : string;
}.

Record ServerResponse := {
  sr_questions : list Question;   (* data.questions *)
  totalPages : Z;
  currentPage : Z;
}.

(** ** Numbers *)

Inductive number :=
  | NaN
  | Num (z : Z).

#[global] Instance number_eq_dec : EqDecision number.
Proof. solve_decision. Defined.

(** [a - b] on numbers: NaN is absorbing. *)
Definition number_sub (a b : number) : number :=
  match a, b with
  | Num x, Num y => Num (x - y)
  | _, _ => NaN
  end.

(** ** Array.prototype.sort

    ECMAScript calls the comparator through SortCompare, which reads a NaN
    result as +0, and requires the sort to be stable.  The order in which the
    engine compares is left to it; the model is a stable insertion sort.  When
    the comparator is consistent (here: no NaN among the compared values)
    every conforming engine returns the same array, see [sort_unique].  When
    it is not, the result is the engine's own and [sort] does not stand for
    it: what is stated of the order assumes a consistent comparator, and
    [V8_sort] shows what an engine does otherwise. *)

Section Sort.
Context {A : Type}.
Variable comparefn : A -> A -> number.

Definition SortCompare (x y : A) : Z :=
  match comparefn x y with
  | NaN => 0
  | Num v => v
  end.

(** [x] goes after every leading [y] that the comparator puts before it. *)
Fixpoint sort_insert (x : A) (l : list A) : list A :=
  match l with
  | [] => [x]
  | y :: l' => if 0 <? SortCompare x y then y :: sort_insert x l' else x :: l
  end.

Fixpoint sort (l : list A) : list A :=
  match l with
  | [] => []
  | x :: l' => sort_insert x (sort l')
  end.
End Sort.

(** The comparator [(a, b) => key(b) - key(a)] of an integer key, and the
    order it asks for. *)
Section ByKey.
Context {A : Type}.
Variable key : A -> Z.

Definition by_key (a b : A) : number := Num (key b - key a).

Definition descending (a b : A) : Prop := key b <= key a.
End ByKey.

(** ** The displayed order (lines 79-92) *)

Section Order.
(** [new Date(s).getTime()]: the milliseconds of the date that [s] denotes,
    NaN when [s] is not a date.  The parser is the engine's. *)
Variable Date_getTime : string -> number.

(** The comparator passed to [sort], with [sortBy] free in it. *)
Definition compareFn (sortBy : string) (a b : Question) : number :=
  if decide (sortBy = "votes") then
    Num (voteCount b - voteCount a)
  else if decide (sortBy = "activity") then
    number_sub (Date_getTime (createdAt b)) (Date_getTime (createdAt a))
  else
    number_sub (Date_getTime (createdAt b)) (Date_getTime (createdAt a)).

(** The value a question is sorted by under [sortBy]. *)
Definition sortValue (sortBy : string) (q : Question) : number :=
  if decide (sortBy = "votes") then Num (voteCount q)
  else Date_getTime (createdAt q).

(** The timestamp as an integer, where the date is valid. *)
Definition timestamp (q : Question) : Z :=
  match Date_getTime (createdAt q) with
  | Num t => t
  | NaN => 0
  end.

(** The contents of [sortedQuestions] for the contents [qs] of [questions]. *)
Definition order (qs : list Question) (sortBy : string) : list Question :=
  sort (compareFn sortBy) qs.
End Order.

(** ** The outside world *)

(** The viewer that [useAuth] supplies; only [role] is read. *)
Record User := {
  role : string;
}.

Record Request := {
  url : string;
  method : string;
  headers : list (string * string);
}.

(** A thrown value, as the handlers read it: through [.message], which is a
    string or undefined. *)
Record Thrown := {
  message : option string;
}.

(** [new Error(msg)] *)
Definition Error (msg : string) : Thrown := {| message := Some msg |}.

(** Reading a property of an array reference that holds no array; the
    handlers never do, see the [heap] hypotheses of the theorems. *)
Definition TypeError : Thrown := {| message := Some "not iterable" |}.

Inductive JsonResult :=
  | JsonRejected (e : Thrown)
  | JsonParsed (data : ServerResponse).

Record Response := {
  ok : bool;
  json : JsonResult;             (* what [await response.json()] gives *)
}.

Inductive FetchResult :=
  | FetchRejected (e : Thrown)   (* transport failure *)
  | FetchResolved (response : Response).

Record Env := {
  backend : string;                              (* import.meta.env.VITE_BACKEND *)
  localStorage_getItem : string -> option string; (* null when the key is absent *)
  window_confirm : string -> bool;
  window_fetch : Request -> FetchResult;
}.

Record Toast := {
  toast_title : string;
  toast_description : string;
  variant : option string;
}.

(** ** The component state and the world it runs in (lines 44-50) *)

Definition loc := nat.

Record State := {
  questions : loc;               (* a reference to the array *)
  isLoading : bool;
  error : option string;         (* a string; undefined once [setError] is given that *)
  sortBy : string;
}.

Record World := {
  state : State;
  heap : list (list Question);   (* the arrays, by reference *)
  requests : list Request;       (* every [fetch] issued, oldest first *)
  toasts : list Toast;           (* every [toast] emitted, oldest first *)
  prompts : list string;         (* every [confirm] shown, oldest first *)
}.

(** What a handler closes over from the render that created it. *)
Record Scope := {
  scope_user : option User;      (* [user] of [useAuth()] *)
  scope_questions : loc;         (* [questions] of that render *)
}.

Definition with_state (f : State -> State) (w : World) : World :=
  {| state := f (state w); heap := heap w; requests := requests w;
     toasts := toasts w; prompts := prompts w |}.

Definition with_heap (h : list (list Question)) (w : World) : World :=
  {| state := state w; heap := h; requests := requests w;
     toasts := toasts w; prompts := prompts w |}.

(** The first render: [useState([])], [useState(true)], [useState(empty string)],
    [useState(newest)]; nothing sent yet. *)
Definition initial_state : State :=
  {| questions := 0%nat; isLoading := true; error := Some EmptyString; sortBy := "newest" |}.

Definition initial_world : World :=
  {| state := initial_state; heap := [[]]; requests := []; toasts := []; prompts := [] |}.

(** ** The monad: state, and completion by value or by throw *)

Inductive Completion (A : Type) :=
  | Normal (a : A)
  | Abrupt (e : Thrown).
Arguments Normal {A} a.
Arguments Abrupt {A} e.

Definition M (A : Type) : Type := World -> Completion A * World.

Definition ret {A} (a : A) : M A := fun w => (Normal a, w).

Definition bind {A B} (m : M A) (k : A -> M B) : M B :=
  fun w =>
    match m w with
    | (Normal a, w') => k a w'
    | (Abrupt e, w') => (Abrupt e, w')
    end.

Definition throw {A} (e : Thrown) : M A := fun w => (Abrupt e, w).

(** [try { body } catch (e) { handler }] *)
Definition try_catch {A} (body : M A) (handler : Thrown -> M A) : M A :=
  fun w =>
    match body w with
    | (Normal a, w') => (Normal a, w')
    | (Abrupt e, w') => handler e w'
    end.

(** [try { body } finally { fin }]: [fin] runs either way, and the completion
    of [body] stands unless [fin] throws. *)
Definition try_finally {A} (body : M A) (fin : M unit) : M A :=
  fun w =>
    match body w with
    | (c, w') =>
        match fin w' with
        | (Normal _, w'') => (c, w'')
        | (Abrupt e, w'') => (Abrupt e, w'')
        end
    end.

Declare Scope M_scope.
Delimit Scope M_scope with M.
Bind Scope M_scope with M.
Notation "x <- c ;; k" := (bind c (fun x => k))
  (at level 100, c at next level, right associativity) : M_scope.
Notation "c ;; k" := (bind c (fun _ => k))
  (at level 100, right associativity) : M_scope.

Definition exec {A} (m : M A) (w : World) : World := snd (m w).
Definition completion {A} (m : M A) (w : World) : Completion A := fst (m w).

(** *** State setters *)

Definition setQuestions (l : loc) : M unit :=
  fun w => (Normal tt, with_state (fun s =>
    {| questions := l; isLoading := isLoading s; error := error s; sortBy := sortBy s |}) w).

Definition setIsLoading (b : bool) : M unit :=
  fun w => (Normal tt, with_state (fun s =>
    {| questions := questions s; isLoading := b; error := error s; sortBy := sortBy s |}) w).

Definition setError (v : option string) : M unit :=
  fun w => (Normal tt, with_state (fun s =>
    {| questions := questions s; isLoading := isLoading s; error := v; sortBy := sortBy s |}) w).

Definition setSortBy (k : string) : M unit :=
  fun w => (Normal tt, with_state (fun s =>
    {| questions := questions s; isLoading := isLoading s; error := error s; sortBy := k |}) w).

(** *** The outside *)

Definition fetch (env : Env) (req : Request) : M Response :=
  fun w =>
    let w' := {| state := state w; heap := heap w; requests := requests w ++ [req];
                 toasts := toasts w; prompts := prompts w |} in
    match window_fetch env req with
    | FetchRejected e => (Abrupt e, w')
    | FetchResolved r => (Normal r, w')
    end.

Definition response_json (r : Response) : M ServerResponse :=
  match json r with
  | JsonRejected e => throw e
  | JsonParsed data => ret data
  end.

Definition confirm (env : Env) (prompt : string) : M bool :=
  fun w =>
    (Normal (window_confirm env prompt),
     {| state := state w; heap := heap w; requests := requests w;
        toasts := toasts w; prompts := prompts w ++ [prompt] |}).

Definition toast (t : Toast) : M unit :=
  fun w =>
    (Normal tt,
     {| state := state w; heap := heap w; requests := requests w;
        toasts := toasts w ++ [t]; prompts := prompts w |}).

(** *** Arrays *)

(** A new array object holding [xs]. *)
Definition Array_alloc (xs : list Question) : M loc :=
  fun w => (Normal (length (heap w)), with_heap (heap w ++ [xs]) w).

Definition Array_read (l : loc) : M (list Question) :=
  fun w =>
    match heap w !! l with
    | Some xs => (Normal xs, w)
    | None => (Abrupt TypeError, w)
    end.

(** [[...arr]] *)
Definition Array_spread (l : loc) : M loc :=
  (xs <- Array_read l ;; Array_alloc xs)%M.

(** [arr.filter(q => P q)]: a new array, [arr] untouched. *)
Definition Array_filter (P : Question -> Prop) `{!forall q, Decision (P q)} (l : loc) : M loc :=
  (xs <- Array_read l ;; Array_alloc (filter P xs))%M.

(** [arr.sort(comparefn)]: sorts [arr] itself and returns it. *)
Definition Array_sort (comparefn : Question -> Question -> number) (l : loc) : M loc :=
  (xs <- Array_read l ;;
   fun w => (Normal l, with_heap (<[l := sort comparefn xs]> (heap w)) w))%M.

(** ** JavaScript conversions used by the component *)

(** The double-quote character of the confirmation prompts. *)
Definition dquote : string := String (Ascii.ascii_of_nat 34) EmptyString.

(** A string-or-null value inside a template literal. *)
Definition template (v : option string) : string :=
  match v with
  | Some s => s
  | None => "null"
  end.

(** Truthiness of a string-or-undefined value. *)
Definition truthy (v : option string) : bool :=
  match v with
  | Some s => bool_decide (s ≠ EmptyString)
  | None => false
  end.

(** [v || d] *)
Definition or_else (v : option string) (d : string) : string :=
  match v with
  | Some s => if truthy v then s else d
  | None => d
  end.

(** ** The component (lines 43-179) *)

(** [!user || user.role !== 'admin'] *)
Definition not_admin (user : option User) : bool :=
  match user with
  | None => true
  | Some u => bool_decide (role u ≠ "admin")
  end.

Definition list_request (env : Env) : Request :=
  {| url := backend env ++ "/api/questions"; method := "GET"; headers := [] |}.

(** The effect run on mount (lines 52-77). *)
Definition fetchQuestions (env : Env) : M unit :=
  try_finally
    (try_catch
       (setIsLoading true ;;
        response <- fetch env (list_request env) ;;
        if negb (ok response) then throw (Error "Failed to fetch questions")
        else
          data <- response_json response ;;
          arr <- Array_alloc (sr_questions data) ;;
          setQuestions arr)%M
       (fun err =>
          setError (message err) ;;
          toast {| toast_title := "Error";
                   toast_description := "Failed to load questions. Please try again later.";
                   variant := Some "destructive" |})%M)
    (setIsLoading false).

Section Render.
Variable Date_getTime : string -> number.

(** [const sortedQuestions = [...questions].sort(...)] of a render (lines 79-92). *)
Definition sortedQuestions (s : State) : M loc :=
  (copy <- Array_spread (questions s) ;;
   Array_sort (compareFn Date_getTime (sortBy s)) copy)%M.
End Render.

Definition delete_prompt (questionTitle : string) : string :=
  "Are you sure you want to delete the question " ++ dquote ++ questionTitle ++ dquote
  ++ " and all its answers? This action cannot be undone.".

Definition delete_request (env : Env) (questionId : string) : Request :=
  {| url := backend env ++ "/api/questions/" ++ questionId ++ "/admin-delete";
     method := "DELETE";
     headers := [("Authorization", "Bearer " ++ template (localStorage_getItem env "token"))] |}.

(** Lines 94-127. *)
Definition handleDeleteQuestion (env : Env) (sc : Scope)
    (questionId questionTitle : string) : M unit :=
  if not_admin (scope_user sc) then ret tt
  else
    (yes <- confirm env (delete_prompt questionTitle) ;;
     if negb yes then ret tt
     else
       try_catch
         (response <- fetch env (delete_request env questionId) ;;
          if negb (ok response) then throw (Error "Failed to delete question")
          else
            kept <- Array_filter (fun q => _id q ≠ questionId) (scope_questions sc) ;;
            setQuestions kept ;;
            toast {| toast_title := "Question deleted";
                     toast_description := "The question and all its answers have been deleted.";
                     variant := None |})
         (fun error =>
            toast {| toast_title := "Error";
                     toast_description := or_else (message error) "Failed to delete question";
                     variant := Some "destructive" |}))%M.

Definition ban_prompt (username : string) : string :=
  "Are you sure you want to ban user " ++ dquote ++ username ++ dquote
  ++ "? This will prevent them from logging in.".

Definition ban_request (env : Env) (userId : string) : Request :=
  {| url := backend env ++ "/api/admin/ban-user/" ++ userId ++ "?banned=true";
     method := "PUT";
     headers := [("Authorization", "Bearer " ++ template (localStorage_getItem env "token"))] |}.

(** Lines 129-159. *)
Definition handleBanUser (env : Env) (sc : Scope) (userId username : string) : M unit :=
  if not_admin (scope_user sc) then ret tt
  else
    (yes <- confirm env (ban_prompt username) ;;
     if negb yes then ret tt
     else
       try_catch
         (response <- fetch env (ban_request env userId) ;;
          if negb (ok response) then throw (Error "Failed to ban user")
          else
            toast {| toast_title := "User banned";
                     toast_description :=
                       "User " ++ dquote ++ username ++ dquote ++ " has been banned successfully.";
                     variant := None |})
         (fun error =>
            toast {| toast_title := "Error";
                     toast_description := or_else (message error) "Failed to ban user";
                     variant := Some "destructive" |}))%M.

(** Which of the three returns of the component a state renders (lines 161-181). *)
Inductive Status :=
  | Loading                      (* the spinner *)
  | Errored                      (* the error page, showing [error] *)
  | Ready.                       (* the list *)

Definition status (s : State) : Status :=
  if isLoading s then Loading
  else if truthy (error s) then Errored
  else Ready.

(** The scope of the handlers created by a render of [w] for viewer [user]. *)
Definition scope_of (user : option User) (w : World) : Scope :=
  {| scope_user := user; scope_questions := questions (state w) |}.

(** The removal that [handleDeleteQuestion] applies to the collection (line 114). *)
Definition removeQuestion (id : string) (qs : list Question) : list Question :=
  filter (fun q => _id q ≠ id) qs.

(** The viewer may moderate: present, with role admin. *)
Definition is_admin (user : option User) : Prop :=
  exists u, user = Some u /\ role u = "admin".

(** A moderation call fails when [fetch] rejects or the response is not ok;
    [thrown_by fallback r] is the error the [try] block then throws. *)
Definition thrown_by (failure : string) (r : FetchResult) : option Thrown :=
  match r with
  | FetchRejected e => Some e
  | FetchResolved response => if ok response then None else Some (Error failure)
  end.

(** The error that the [try] block of [fetchQuestions] throws, if any. *)
Definition load_thrown (r : FetchResult) : option Thrown :=
  match r with
  | FetchRejected e => Some e
  | FetchResolved response =>
      if ok response then
        match json response with
        | JsonRejected e => Some e
        | JsonParsed _ => None
        end
      else Some (Error "Failed to fetch questions")
  end.

(** ** Shapes of the worlds the handlers leave *)

(** The world after the log entries of one moderation attempt. *)
Definition logged (st : State) (h : list (list Question)) (req : Request) (t : Toast)
    (prompt : string) (w : World) : World :=
  {| state := st; heap := h; requests := requests w ++ [req];
     toasts := toasts w ++ [t]; prompts := prompts w ++ [prompt] |}.

Definition error_toast (e : Thrown) (failure : string) : Toast :=
  {| toast_title := "Error"; toast_description := or_else (message e) failure;
     variant := Some "destructive" |}.

Definition load_error_toast : Toast :=
  {| toast_title := "Error";
     toast_description := "Failed to load questions. Please try again later.";
     variant := Some "destructive" |}.

Definition deleted_toast : Toast :=
  {| toast_title := "Question deleted";
     toast_description := "The question and all its answers have been deleted.";
     variant := None |}.

Definition banned_toast (username : string) : Toast :=
  {| toast_title := "User banned";
     toast_description :=
       "User " ++ dquote ++ username ++ dquote ++ " has been banned successfully.";
     variant := None |}.

(** The questions a render of [w] lists, in order. *)
Definition displayed (Date_getTime : string -> number) (w : World) : option (list Question) :=
  match sortedQuestions Date_getTime (state w) w with
  | (Normal sorted, w') => heap w' !! sorted
  | (Abrupt _, _) => None
  end.

(** ** Example data *)

Definition example_question (id : string) (count : Z) (created : string) : Question :=
  {| _id := id; title := "Q" ++ id; description := "<p>text</p>";
     userId := {| author_id := "u1"; username := "ann" |};
     tags := ["odoo"]; votes := []; answers := []; acceptedAnswerId := None;
     voteCount := count; createdAt := created |}.

(** The engine's date parser on the dates of the examples; NaN for the rest,
    as for the string that is no date. *)
Definition example_getTime (s : string) : number :=
  if decide (s = "2024-01-01T00:00:00.000Z") then Num 1704067200000
  else if decide (s = "2024-01-02T00:00:00.000Z") then Num 1704153600000
  else if decide (s = "2024-01-03T00:00:00.000Z") then Num 1704240000000
  else NaN.

(** Votes [5, 12, 3], as the service delivers them. *)
Definition example_questions : list Question :=
  [ example_question "q1" 5 "2024-01-02T00:00:00.000Z";
    example_question "q2" 12 "2024-01-01T00:00:00.000Z";
    example_question "q3" 3 "2024-01-03T00:00:00.000Z" ].

(** The feed once [example_questions] is loaded. *)
Definition example_world : World :=
  {| state := {| questions := 1%nat; isLoading := false; error := Some EmptyString;
                 sortBy := "votes" |};
     heap := [[]; example_questions];
     requests := []; toasts := []; prompts := [] |}.

Definition example_admin : option User := Some {| role := "admin" |}.
Definition example_member : option User := Some {| role := "member" |}.

Definition example_ok : Response :=
  {| ok := true;
     json := JsonParsed {| sr_questions := example_questions; totalPages := 1; currentPage := 1 |} |}.

(** A 401 answer: the body is not read. *)
Definition example_unauthorized : Response :=
  {| ok := false; json := JsonRejected (Error "Unexpected end of JSON input") |}.

(** A session with a token, a viewer who confirms, a service that accepts. *)
Definition example_env : Env :=
  {| backend := "http://localhost:5000";
     localStorage_getItem := fun k => if decide (k = "token") then Some "abc" else None;
     window_confirm := fun _ => true;
     window_fetch := fun _ => FetchResolved example_ok |}.

(** The same, the service rejecting the token. *)
Definition example_env_unauthorized : Env :=
  {| backend := "http://localhost:5000";
     localStorage_getItem := fun k => if decide (k = "token") then Some "expired" else None;
     window_confirm := fun _ => true;
     window_fetch := fun _ => FetchResolved example_unauthorized |}.

(** The same as [example_env], the viewer declining every confirmation. *)
Definition example_env_declined : Env :=
  {| backend := "http://localhost:5000";
     localStorage_getItem := fun k => if decide (k = "token") then Some "abc" else None;
     window_confirm := fun _ => false;
     window_fetch := fun _ => FetchResolved example_ok |}.

(** No token in the session store. *)
Definition example_env_no_token : Env :=
  {| backend := "http://localhost:5000";
     localStorage_getItem := fun _ => None;
     window_confirm := fun _ => true;
     window_fetch := fun _ => FetchResolved example_ok |}.

(** The transport fails, and the error it rejects with has an empty message. *)
Definition example_env_silent_failure : Env :=
  {| backend := "http://localhost:5000";
     localStorage_getItem := fun _ => None;
     window_confirm := fun _ => true;
     window_fetch := fun _ => FetchRejected (Error EmptyString) |}.

(** The transport fails the way a browser reports it. *)
Definition example_env_offline : Env :=
  {| backend := "http://localhost:5000";
     localStorage_getItem := fun _ => None;
     window_confirm := fun _ => true;
     window_fetch := fun _ => FetchRejected (Error "Failed to fetch") |}.

(** ** The excerpt of a card (line 275)

    [description.replace(/<[^>]*>/g, "")]: every leftmost match of a [<], the
    characters up to the next [>], and that [>], is dropped.  A match at a
    [<] exists exactly when a [>] occurs later, and it ends at the first one.
    The scanner below is in one of two states, outside or inside a match;
    [strip_lt] states it match by match.  Strings are scanned by character
    code; the two characters that matter are ASCII, so a byte of a UTF-8
    string is one of them only where the text has that character. *)

Definition is_lt (c : Ascii.ascii) : bool := Ascii.eqb c (Ascii.ascii_of_nat 60).
Definition is_gt (c : Ascii.ascii) : bool := Ascii.eqb c (Ascii.ascii_of_nat 62).

(** A [>] occurs in [s]. *)
Fixpoint has_gt (s : string) : bool :=
  match s with
  | EmptyString => false
  | String c s' => is_gt c || has_gt s'
  end.

(** What follows the first [>] of [s], if there is one. *)
Fixpoint after_gt (s : string) : option string :=
  match s with
  | EmptyString => None
  | String c s' => if is_gt c then Some s' else after_gt s'
  end.

Fixpoint strip (inside : bool) (s : string) : string :=
  match s with
  | EmptyString => EmptyString
  | String c s' =>
      if inside then
        if is_gt c then strip false s' else strip true s'
      else if is_lt c && has_gt s' then strip true s'
      else String c (strip false s')
  end.

Definition stripTags (s : string) : string := strip false s.

(** [s] has a match of the pattern: a [<] with a [>] after it. *)
Fixpoint has_tag (s : string) : bool :=
  match s with
  | EmptyString => false
  | String c s' => (is_lt c && has_gt s') || has_tag s'
  end.

(** A [<] occurs in [s]. *)
Fixpoint has_lt (s : string) : bool :=
  match s with
  | EmptyString => false
  | String c s' => is_lt c || has_lt s'
  end.

(** ** What the component returns (lines 161-305)

    The markup is kept as data: which of the four returns it is, and for the
    list the fields each card shows and the calls its two buttons make.
    Static text, icons and class names are left out. *)

Record Card := {
  card_key : string;                        (* key={question._id} *)
  card_voteCount : Z;
  card_answers : nat;                       (* question.answers.length *)
  card_accepted : bool;                     (* question.acceptedAnswerId is truthy *)
  card_link : string;
  card_title : string;
  card_delete : option (string * string);   (* the arguments of handleDeleteQuestion *)
  card_ban : option (string * string);      (* the arguments of handleBanUser *)
  card_excerpt : string;
  card_tags : list string;
  card_username : string;
  card_date : string;
}.

Inductive View :=
  | Spinner
  | ErrorPage (msg : string)
  | EmptyFeed (tab : string)                (* No questions yet *)
  | Feed (tab : string) (cards : list Card).

(** [user && user.role === 'admin'] *)
Definition shows_controls (user : option User) : bool :=
  match user with
  | None => false
  | Some u => bool_decide (role u = "admin")
  end.

Section View.
Variable Date_getTime : string -> number.
(** [new Date(s).toLocaleDateString()], the engine's and the locale's. *)
Variable Date_toLocaleDateString : string -> string.

Definition card (user : option User) (question : Question) : Card :=
  {| card_key := _id question;
     card_voteCount := voteCount question;
     card_answers := length (answers question);
     card_accepted := truthy (acceptedAnswerId question);
     card_link := "/questions/" ++ _id question;
     card_title := title question;
     card_delete :=
       if shows_controls user then Some (_id question, title question) else None;
     card_ban :=
       if shows_controls user
       then Some (author_id (userId question), username (userId question)) else None;
     card_excerpt := stripTags (description question);
     card_tags := tags question;
     card_username := username (userId question);
     card_date := Date_toLocaleDateString (createdAt question) |}.

(** The last return: the tabs and, under them, the empty notice or the cards. *)
Definition feed (user : option User) (tab : string) (sorted : list Question) : View :=
  if (length sorted =? 0)%nat then EmptyFeed tab
  else Feed tab (map (card user) sorted).

(** One render of the component for viewer [user] in state [s]. *)
Definition HomePage (user : option User) (s : State) : M View :=
  (sorted <- sortedQuestions Date_getTime s ;;
   if isLoading s then ret Spinner
   else
     match error s with
     | Some msg =>
         if truthy (Some msg) then ret (ErrorPage msg)
         else (xs <- Array_read sorted ;; ret (feed user (sortBy s) xs))
     | None => (xs <- Array_read sorted ;; ret (feed user (sortBy s) xs))
     end)%M.
End View.

(** The cards of a view; none unless it is the list. *)
Definition cards_of (v : View) : list Card :=
  match v with
  | Feed _ cards => cards
  | _ => []
  end.

(** An operation leaves every array that exists as it is. *)
Definition keeps_arrays {A} (m : M A) : Prop :=
  forall w l xs, heap w !! l = Some xs -> heap (exec m w) !! l = Some xs.

(** The engine's short date on the dates of the examples, in the en-US locale
    and UTC. *)
Definition example_toLocaleDateString (s : string) : string :=
  if decide (s = "2024-01-01T00:00:00.000Z") then "1/1/2024"
  else if decide (s = "2024-01-02T00:00:00.000Z") then "1/2/2024"
  else if decide (s = "2024-01-03T00:00:00.000Z") then "1/3/2024"
  else "Invalid Date".

(** Descriptions of the examples. *)
Definition example_markup : string := "<p>How do I <b>sort</b> a list?</p>".
Definition example_comparison : string := "is 1 < 2 and 3 > 2 true?".

(** ** The sort of an engine

    Where the comparator is not consistent the result of
    [Array.prototype.sort] is the engine's own, and [sort] does not stand for
    it.  [V8_sort] is what V8 does to an array shorter than 64: it takes the
    run that starts the array (reversed when it descends strictly) and puts
    each further element into place by binary search.  Longer arrays, which
    V8 sorts run by run and merges, are not transcribed.  [V8_sort_consistent]
    shows that it returns [sort] when the comparator is the difference of a
    key. *)

Section EngineSort.
Context {A : Type}.
Variable comparefn : A -> A -> number.

(** The rest of the run whose last element so far is [previous], and what
    follows the run. *)
Fixpoint run_extend (descending : bool) (previous : A) (l : list A) : list A * list A :=
  match l with
  | [] => ([], [])
  | current :: l' =>
      let order := SortCompare comparefn current previous in
      if (if descending then order <? 0 else 0 <=? order)
      then let (run, rest) := run_extend descending current l' in (current :: run, rest)
      else ([], l)
  end.

(** The run that starts the array, made ascending in the order of the
    comparator, and the elements after it. *)
Definition count_and_make_run (l : list A) : list A * list A :=
  match l with
  | x0 :: x1 :: l' =>
      let descending := SortCompare comparefn x1 x0 <? 0 in
      let (run, rest) := run_extend descending x1 l' in
      (if descending then reverse (x0 :: x1 :: run) else x0 :: x1 :: run, rest)
  | _ => (l, [])
  end.

(** The binary search of the insertion: the index in [left, right] where
    [pivot] goes. *)
Fixpoint insertion_point (fuel : nat) (pivot : A) (sorted : list A) (left right : nat) : nat :=
  match fuel with
  | O => left
  | S fuel' =>
      if (left <? right)%nat then
        let mid := (left + (right - left) / 2)%nat in
        match sorted !! mid with
        | Some e =>
            if SortCompare comparefn pivot e <? 0
            then insertion_point fuel' pivot sorted left mid
            else insertion_point fuel' pivot sorted (S mid) right
        | None => left
        end
      else left
  end.

Definition binary_insert (sorted : list A) (pivot : A) : list A :=
  let p := insertion_point (length sorted) pivot sorted 0 (length sorted) in
  take p sorted ++ pivot :: drop p sorted.

Definition V8_sort (l : list A) : option (list A) :=
  if (length l <? 64)%nat then
    let (run, rest) := count_and_make_run l in
    Some (foldl binary_insert run rest)
  else None.
End EngineSort.

(** Seven questions as the service may deliver them: the third has a creation
    date that is no date, five share one date. *)
Definition example_questions_invalid_date : list Question :=
  [ example_question "q1" 0 "2024-01-01T00:00:00.000Z";
    example_question "q2" 0 "2024-01-02T00:00:00.000Z";
    example_question "q3" 0 "not a date";
    example_question "q4" 0 "2024-01-02T00:00:00.000Z";
    example_question "q5" 0 "2024-01-02T00:00:00.000Z";
    example_question "q6" 0 "2024-01-02T00:00:00.000Z";
    example_question "q7" 0 "2024-01-02T00:00:00.000Z" ].

(** The collection has a consistent comparator under [sortBy]: the key is
    votes, or every creation date is a date. *)
Definition consistent_order (Date_getTime : string -> number) (sortBy : string)
    (qs : list Question) : Prop :=
  sortBy = "votes" \/ (forall q, q ∈ qs -> Date_getTime (createdAt q) <> NaN).

(** * Facts about the sort *)

Section SortFacts.
Context {A : Type}.
Variable comparefn : A -> A -> number.

Lemma sort_insert_perm x l : sort_insert comparefn x l ≡ₚ x :: l.
Proof.
  induction l as [|y l IH]; simpl; [done|].
  destruct (0 <? SortCompare comparefn x y); [|done].
  rewrite IH. apply Permutation_swap.
Qed.

Lemma sort_perm l : sort comparefn l ≡ₚ l.
Proof.
  induction l as [|x l IH]; simpl; [done|].
  by rewrite sort_insert_perm, IH.
Qed.

Lemma sort_elem_of x l : x ∈ sort comparefn l <-> x ∈ l.
Proof. by rewrite sort_perm. Qed.

(** Stability, in its general form: a class of elements that the comparator
    never orders among themselves keeps its order. *)
Section Stable.
Variable P : A -> Prop.
Context `{!forall x, Decision (P x)}.
Hypothesis P_tied : forall x y, P x -> P y -> SortCompare comparefn x y <= 0.

Lemma filter_sort_insert x l :
  filter P (sort_insert comparefn x l) = filter P (x :: l).
Proof.
  induction l as [|y l IH]; simpl; [done|].
  destruct (0 <? SortCompare comparefn x y) eqn:Hc; [|done].
  apply Z.ltb_lt in Hc.
  rewrite (filter_cons _ y), IH, !filter_cons.
  destruct (decide (P x)) as [Hx|Hx], (decide (P y)) as [Hy|Hy]; try done.
  specialize (P_tied x y Hx Hy). lia.
Qed.

Lemma filter_sort l : filter P (sort comparefn l) = filter P l.
Proof.
  induction l as [|x l IH]; simpl; [done|].
  rewrite filter_sort_insert, !filter_cons. by rewrite IH.
Qed.
End Stable.

(** Only the comparisons between elements of the array matter. *)
Lemma sort_insert_ext_in (comparefn' : A -> A -> number) x l :
  (forall y, y ∈ l -> comparefn x y = comparefn' x y) ->
  sort_insert comparefn x l = sort_insert comparefn' x l.
Proof.
  induction l as [|y l IH]; simpl; intros Hext; [done|].
  unfold SortCompare. rewrite (Hext y) by left.
  rewrite IH; [done|]. intros z Hz. apply Hext. by right.
Qed.

Lemma sort_ext_in (comparefn' : A -> A -> number) l :
  (forall x y, x ∈ l -> y ∈ l -> comparefn x y = comparefn' x y) ->
  sort comparefn l = sort comparefn' l.
Proof.
  induction l as [|x l IH]; simpl; intros Hext; [done|].
  rewrite <- IH by (intros; apply Hext; by right).
  apply sort_insert_ext_in. intros y Hy. apply Hext; [by left|].
  right. by apply (sort_elem_of y l).
Qed.
End SortFacts.

(** When the comparator is the difference of an integer key, taken
    descending, the result is sorted, and it is the only stable sorted
    arrangement: the choice of sorting algorithm is then immaterial. *)
Section KeySort.
Context {A : Type}.
Variable key : A -> Z.

Lemma sort_insert_sorted x l :
  Sorted (descending key) l -> Sorted (descending key) (sort_insert (by_key key) x l).
Proof.
  induction 1 as [|y l Hl IH Hhd]; simpl; [by repeat constructor|].
  unfold SortCompare, by_key at 1.
  destruct (0 <? key y - key x) eqn:Hc.
  - apply Z.ltb_lt in Hc. constructor; [done|].
    destruct Hhd as [|z l Hyz]; simpl.
    + constructor. unfold descending. lia.
    + unfold SortCompare, by_key.
      destruct (0 <? key z - key x); constructor; [done|].
      unfold descending. lia.
  - apply Z.ltb_ge in Hc. constructor; [by constructor|].
    constructor. unfold descending. lia.
Qed.

Lemma sort_sorted l : Sorted (descending key) (sort (by_key key) l).
Proof.
  induction l as [|x l IH]; simpl; [constructor|]. by apply sort_insert_sorted.
Qed.

Lemma descending_trans : Transitive (descending key).
Proof. unfold descending. intros a b c ??. lia. Qed.

Lemma sorted_head_max x l y :
  Sorted (descending key) (x :: l) -> y ∈ x :: l -> key y <= key x.
Proof.
  intros Hs Hy. apply Sorted_StronglySorted in Hs; [|apply descending_trans].
  apply StronglySorted_inv in Hs as [_ Hall].
  apply elem_of_cons in Hy as [->|Hy]; [lia|].
  rewrite Forall_forall in Hall. by apply Hall.
Qed.

(** Two sorted arrangements that agree on every class of equal keys are
    the same list. *)
Lemma sorted_unique l1 l2 :
  Sorted (descending key) l1 -> Sorted (descending key) l2 ->
  (forall v, filter (fun a => key a = v) l1 = filter (fun a => key a = v) l2) ->
  l1 = l2.
Proof.
  revert l2. induction l1 as [|x l1 IH]; intros l2 Hs1 Hs2 Hf.
  - destruct l2 as [|y l2]; [done|].
    specialize (Hf (key y)). rewrite filter_nil, filter_cons_True in Hf by done.
    done.
  - destruct l2 as [|y l2].
    { specialize (Hf (key x)). rewrite filter_nil, filter_cons_True in Hf by done.
      done. }
    assert (key x = key y) as Hxy.
    { assert (x ∈ y :: l2) as Hx.
      { apply (list_elem_of_filter (fun a => key a = key x)).
        rewrite <- Hf, filter_cons_True by done. left. }
      assert (y ∈ x :: l1) as Hy.
      { apply (list_elem_of_filter (fun a => key a = key y)).
        rewrite Hf, filter_cons_True by done. left. }
      pose proof (sorted_head_max _ _ _ Hs2 Hx).
      pose proof (sorted_head_max _ _ _ Hs1 Hy). lia. }
    pose proof (Hf (key x)) as Hfx.
    rewrite filter_cons_True, (filter_cons_True _ y) in Hfx by done.
    injection Hfx as -> Hfx.
    f_equal. apply IH.
    + by apply Sorted_inv in Hs1 as [? _].
    + by apply Sorted_inv in Hs2 as [? _].
    + intros v. specialize (Hf v). rewrite !filter_cons in Hf.
      destruct (decide (key y = v)); [by injection Hf|done].
Qed.

(** Any stable, sorted rearrangement is the one the model computes. *)
Lemma sort_unique l l' :
  Sorted (descending key) l' ->
  (forall v, filter (fun a => key a = v) l' = filter (fun a => key a = v) l) ->
  l' = sort (by_key key) l.
Proof.
  intros Hs Hf. apply sorted_unique; [done|apply sort_sorted|].
  intros v. rewrite Hf. symmetry. apply filter_sort.
  intros x y <- Hy. unfold SortCompare, by_key. lia.
Qed.

(** Sortedness read off adjacent positions. *)
Lemma sorted_adjacent l (i : nat) a b :
  Sorted (descending key) l -> l !! i = Some a -> l !! S i = Some b -> key b <= key a.
Proof.
  intros Hs. revert i. induction Hs as [|x l Hl IH Hhd]; intros i Ha Hb; [done|].
  destruct i as [|i]; simpl in *.
  - injection Ha as ->. destruct Hhd as [|y l Hxy]; [done|].
    simpl in Hb. by injection Hb as ->.
  - by apply (IH i).
Qed.
End KeySort.

(** * Facts about the displayed order *)

Section OrderFacts.
Variable Date_getTime : string -> number.

Lemma compareFn_tied sortBy v x y :
  sortValue Date_getTime sortBy x = v ->
  sortValue Date_getTime sortBy y = v ->
  SortCompare (compareFn Date_getTime sortBy) x y = 0.
Proof.
  unfold sortValue, SortCompare, compareFn. intros Hx Hy.
  destruct (decide (sortBy = "votes")).
  - assert (voteCount x = voteCount y) by congruence. lia.
  - rewrite Hx, Hy.
    destruct (decide (sortBy = "activity")), v as [|t]; simpl; lia.
Qed.

Lemma order_perm qs sortBy : order Date_getTime qs sortBy ≡ₚ qs.
Proof. apply sort_perm. Qed.

Lemma order_stable qs sortBy v :
  filter (fun q => sortValue Date_getTime sortBy q = v) (order Date_getTime qs sortBy)
  = filter (fun q => sortValue Date_getTime sortBy q = v) qs.
Proof.
  apply filter_sort. intros x y Hx Hy.
  by rewrite (compareFn_tied sortBy v x y).
Qed.

Lemma order_votes qs : order Date_getTime qs "votes" = sort (by_key voteCount) qs.
Proof. reflexivity. Qed.

Lemma order_votes_sorted qs :
  Sorted (descending voteCount) (order Date_getTime qs "votes").
Proof. rewrite order_votes. apply sort_sorted. Qed.

(** Under any key but votes the comparator is the timestamp difference. *)
Lemma compareFn_dates sortBy a b :
  sortBy <> "votes" ->
  compareFn Date_getTime sortBy a b
  = number_sub (Date_getTime (createdAt b)) (Date_getTime (createdAt a)).
Proof.
  intros Hne. unfold compareFn.
  destruct (decide (sortBy = "votes")); [done|].
  by destruct (decide (sortBy = "activity")).
Qed.

Lemma order_dates qs sortBy :
  sortBy <> "votes" ->
  (forall q, q ∈ qs -> Date_getTime (createdAt q) <> NaN) ->
  order Date_getTime qs sortBy = sort (by_key (timestamp Date_getTime)) qs.
Proof.
  intros Hne Hvalid. apply sort_ext_in. intros a b Ha Hb.
  rewrite compareFn_dates by done. unfold by_key, timestamp.
  pose proof (Hvalid a Ha). pose proof (Hvalid b Hb).
  by destruct (Date_getTime (createdAt a)), (Date_getTime (createdAt b)).
Qed.


(** With valid dates, and under votes always, the displayed order is the
    one every stable sort produces. *)
Lemma order_votes_unique qs out :
  Sorted (descending voteCount) out ->
  (forall v, filter (fun q => voteCount q = v) out = filter (fun q => voteCount q = v) qs) ->
  out = order Date_getTime qs "votes".
Proof. rewrite order_votes. apply sort_unique. Qed.

Lemma order_dates_unique qs sortBy out :
  sortBy <> "votes" ->
  (forall q, q ∈ qs -> Date_getTime (createdAt q) <> NaN) ->
  Sorted (descending (timestamp Date_getTime)) out ->
  (forall v, filter (fun q => timestamp Date_getTime q = v) out = filter (fun q => timestamp Date_getTime q = v) qs) ->
  out = order Date_getTime qs sortBy.
Proof. intros. rewrite order_dates by done. by apply sort_unique. Qed.
End OrderFacts.

(** * How the handlers run *)

Lemma is_admin_not_admin user : is_admin user <-> not_admin user = false.
Proof.
  unfold is_admin, not_admin. split.
  - intros (u & -> & Hr). apply bool_decide_eq_false. by intros [].
  - destruct user as [u|]; [|done]. intros Hr.
    apply bool_decide_eq_false in Hr. exists u. split; [done|].
    by destruct (decide (role u = "admin")).
Qed.

Lemma not_is_admin_not_admin user : ~ is_admin user <-> not_admin user = true.
Proof.
  rewrite is_admin_not_admin. by destruct (not_admin user).
Qed.

Lemma or_else_truthy v d : truthy v = true -> Some (or_else v d) = v.
Proof. destruct v as [s|]; simpl; [|done]. by intros ->. Qed.

Section Runs.
Variables (env : Env) (sc : Scope) (w : World).

Lemma handleDeleteQuestion_not_admin questionId questionTitle :
  not_admin (scope_user sc) = true ->
  handleDeleteQuestion env sc questionId questionTitle w = (Normal tt, w).
Proof. unfold handleDeleteQuestion. by intros ->. Qed.

Lemma handleDeleteQuestion_declined questionId questionTitle :
  not_admin (scope_user sc) = false ->
  window_confirm env (delete_prompt questionTitle) = false ->
  handleDeleteQuestion env sc questionId questionTitle w
  = (Normal tt, {| state := state w; heap := heap w; requests := requests w;
                   toasts := toasts w;
                   prompts := prompts w ++ [delete_prompt questionTitle] |}).
Proof.
  unfold handleDeleteQuestion, bind, confirm. intros -> Hno. simpl. by rewrite Hno.
Qed.

Lemma handleDeleteQuestion_failed questionId questionTitle e :
  not_admin (scope_user sc) = false ->
  window_confirm env (delete_prompt questionTitle) = true ->
  thrown_by "Failed to delete question" (window_fetch env (delete_request env questionId))
    = Some e ->
  handleDeleteQuestion env sc questionId questionTitle w
  = (Normal tt,
     logged (state w) (heap w) (delete_request env questionId)
       (error_toast e "Failed to delete question") (delete_prompt questionTitle) w).
Proof.
  unfold handleDeleteQuestion, bind, confirm, try_catch, fetch, thrown_by.
  intros -> Hyes He. simpl. rewrite Hyes. simpl.
  destruct (window_fetch env (delete_request env questionId)) as [e'|response]; simpl.
  - by injection He as ->.
  - destruct (ok response); [done|]. by injection He as <-.
Qed.

Lemma handleDeleteQuestion_succeeded questionId questionTitle response qs :
  not_admin (scope_user sc) = false ->
  window_confirm env (delete_prompt questionTitle) = true ->
  window_fetch env (delete_request env questionId) = FetchResolved response ->
  ok response = true ->
  heap w !! scope_questions sc = Some qs ->
  handleDeleteQuestion env sc questionId questionTitle w
  = (Normal tt,
     logged
       {| questions := length (heap w); isLoading := isLoading (state w);
          error := error (state w); sortBy := sortBy (state w) |}
       (heap w ++ [removeQuestion questionId qs])
       (delete_request env questionId)
       {| toast_title := "Question deleted";
          toast_description := "The question and all its answers have been deleted.";
          variant := None |}
       (delete_prompt questionTitle) w).
Proof.
  unfold handleDeleteQuestion, bind, confirm, try_catch, fetch.
  intros -> Hyes Hfetch Hok Hqs. simpl. rewrite Hyes, Hfetch. simpl. rewrite Hok. simpl.
  unfold Array_filter, Array_read, bind. simpl. by rewrite Hqs.
Qed.

Lemma handleBanUser_not_admin userId username :
  not_admin (scope_user sc) = true ->
  handleBanUser env sc userId username w = (Normal tt, w).
Proof. unfold handleBanUser. by intros ->. Qed.

Lemma handleBanUser_declined userId username :
  not_admin (scope_user sc) = false ->
  window_confirm env (ban_prompt username) = false ->
  handleBanUser env sc userId username w
  = (Normal tt, {| state := state w; heap := heap w; requests := requests w;
                   toasts := toasts w; prompts := prompts w ++ [ban_prompt username] |}).
Proof.
  unfold handleBanUser, bind, confirm. intros -> Hno. simpl. by rewrite Hno.
Qed.

Lemma handleBanUser_failed userId username e :
  not_admin (scope_user sc) = false ->
  window_confirm env (ban_prompt username) = true ->
  thrown_by "Failed to ban user" (window_fetch env (ban_request env userId)) = Some e ->
  handleBanUser env sc userId username w
  = (Normal tt,
     logged (state w) (heap w) (ban_request env userId)
       (error_toast e "Failed to ban user") (ban_prompt username) w).
Proof.
  unfold handleBanUser, bind, confirm, try_catch, fetch, thrown_by.
  intros -> Hyes He. simpl. rewrite Hyes. simpl.
  destruct (window_fetch env (ban_request env userId)) as [e'|response]; simpl.
  - by injection He as ->.
  - destruct (ok response); [done|]. by injection He as <-.
Qed.

Lemma handleBanUser_succeeded userId username response :
  not_admin (scope_user sc) = false ->
  window_confirm env (ban_prompt username) = true ->
  window_fetch env (ban_request env userId) = FetchResolved response ->
  ok response = true ->
  handleBanUser env sc userId username w
  = (Normal tt,
     logged (state w) (heap w) (ban_request env userId)
       {| toast_title := "User banned";
          toast_description :=
            "User " ++ dquote ++ username ++ dquote ++ " has been banned successfully.";
          variant := None |}
       (ban_prompt username) w).
Proof.
  unfold handleBanUser, bind, confirm, try_catch, fetch.
  intros -> Hyes Hfetch Hok. simpl. rewrite Hyes, Hfetch. simpl. by rewrite Hok.
Qed.
End Runs.

(** A moderation handler never completes by a throw: what the [try] block
    throws, the [catch] turns into a toast. *)
Lemma handleDeleteQuestion_completes env sc questionId questionTitle w :
  completion (handleDeleteQuestion env sc questionId questionTitle) w = Normal tt.
Proof.
  unfold completion, handleDeleteQuestion, bind, confirm, try_catch, fetch.
  destruct (not_admin (scope_user sc)); [done|]. simpl.
  destruct (window_confirm env (delete_prompt questionTitle)); [|done]. simpl.
  destruct (window_fetch env (delete_request env questionId)) as [e|response]; [done|].
  destruct (ok response); [|done]. simpl.
  unfold Array_filter, Array_read, bind. simpl.
  by destruct (heap w !! scope_questions sc).
Qed.

Lemma handleBanUser_completes env sc userId username w :
  completion (handleBanUser env sc userId username) w = Normal tt.
Proof.
  unfold completion, handleBanUser, bind, confirm, try_catch, fetch.
  destruct (not_admin (scope_user sc)); [done|]. simpl.
  destruct (window_confirm env (ban_prompt username)); [|done]. simpl.
  destruct (window_fetch env (ban_request env userId)) as [e|response]; [done|].
  by destruct (ok response).
Qed.

(** Past the two guards, exactly one request goes out and one toast comes
    back, whatever the service answers. *)
Lemma handleDeleteQuestion_confirmed env sc questionId questionTitle w :
  not_admin (scope_user sc) = false ->
  window_confirm env (delete_prompt questionTitle) = true ->
  let w' := exec (handleDeleteQuestion env sc questionId questionTitle) w in
  requests w' = (requests w ++ [delete_request env questionId])%list
  /\ exists t, toasts w' = (toasts w ++ [t])%list.
Proof.
  unfold exec, handleDeleteQuestion, bind, confirm, try_catch, fetch.
  intros -> Hyes. simpl. rewrite Hyes. simpl.
  destruct (window_fetch env (delete_request env questionId)) as [e|response]; simpl;
    [eauto|].
  destruct (ok response); simpl; [|eauto].
  unfold Array_filter, Array_read, bind. simpl.
  destruct (heap w !! scope_questions sc); simpl; eauto.
Qed.

Lemma handleBanUser_confirmed env sc userId username w :
  not_admin (scope_user sc) = false ->
  window_confirm env (ban_prompt username) = true ->
  let w' := exec (handleBanUser env sc userId username) w in
  requests w' = (requests w ++ [ban_request env userId])%list
  /\ exists t, toasts w' = (toasts w ++ [t])%list.
Proof.
  unfold exec, handleBanUser, bind, confirm, try_catch, fetch.
  intros -> Hyes. simpl. rewrite Hyes. simpl.
  destruct (window_fetch env (ban_request env userId)) as [e|response]; simpl; [eauto|].
  destruct (ok response); simpl; eauto.
Qed.

(** The two ways the initial load ends. *)
Lemma fetchQuestions_loaded env w response data :
  window_fetch env (list_request env) = FetchResolved response ->
  ok response = true ->
  json response = JsonParsed data ->
  fetchQuestions env w
  = (Normal tt,
     {| state := {| questions := length (heap w); isLoading := false;
                    error := error (state w); sortBy := sortBy (state w) |};
        heap := heap w ++ [sr_questions data];
        requests := requests w ++ [list_request env];
        toasts := toasts w; prompts := prompts w |}).
Proof.
  unfold fetchQuestions, try_finally, try_catch, bind, fetch, response_json.
  intros Hfetch Hok Hjson. simpl. rewrite Hfetch. simpl. rewrite Hok. simpl.
  by rewrite Hjson.
Qed.

Lemma fetchQuestions_failed env w e :
  load_thrown (window_fetch env (list_request env)) = Some e ->
  fetchQuestions env w
  = (Normal tt,
     {| state := {| questions := questions (state w); isLoading := false;
                    error := message e; sortBy := sortBy (state w) |};
        heap := heap w;
        requests := requests w ++ [list_request env];
        toasts := toasts w ++ [load_error_toast]; prompts := prompts w |}).
Proof.
  unfold fetchQuestions, try_finally, try_catch, bind, fetch, response_json, load_thrown.
  intros He. simpl.
  destruct (window_fetch env (list_request env)) as [e'|response]; simpl.
  - by injection He as ->.
  - destruct (ok response); simpl.
    + destruct (json response) as [e'|data]; [|done]. by injection He as ->.
    + by injection He as <-.
Qed.

(** Every load either stores the parsed questions or throws into the [catch]. *)
Lemma load_thrown_cases r :
  (exists e, load_thrown r = Some e)
  \/ (exists response data, r = FetchResolved response /\ ok response = true
                           /\ json response = JsonParsed data).
Proof.
  destruct r as [e|response]; simpl; [eauto|].
  destruct (ok response) eqn:Hok; [|eauto].
  destruct (json response) as [e|data] eqn:Hjson; [eauto|].
  right. by exists response, data.
Qed.

(** One render: the copy is sorted, the array of the state is not. *)
Lemma sortedQuestions_run Date_getTime s w qs :
  heap w !! questions s = Some qs ->
  sortedQuestions Date_getTime s w
  = (Normal (length (heap w)),
     with_heap (heap w ++ [order Date_getTime qs (sortBy s)]) w).
Proof.
  intros Hqs.
  unfold sortedQuestions, Array_spread, Array_sort, Array_read, Array_alloc, bind.
  rewrite Hqs. simpl.
  rewrite lookup_app_r by lia. rewrite Nat.sub_diag. simpl.
  unfold with_heap. simpl. f_equal. f_equal.
  rewrite insert_app_r_alt by lia. by rewrite Nat.sub_diag.
Qed.

(** * The sort of an engine agrees with the model

    For a comparator that is the difference of an integer key, V8's sort of
    a short array returns a sorted, stable arrangement, hence the array that
    [sort] returns. *)

Section V8Facts.
Context {A : Type}.
Variable key : A -> Z.

Lemma filter_none (P : A -> Prop) `{!forall x, Decision (P x)} (l : list A) :
  (forall x, x ∈ l -> ~ P x) -> filter P l = [].
Proof.
  induction l as [|x l IH]; intros Hnone; [done|].
  rewrite filter_cons. destruct (decide (P x)) as [Hx|_].
  - exfalso. apply (Hnone x); [left|done].
  - apply IH. intros y Hy. apply Hnone. by right.
Qed.

Lemma strongly_sorted_lookup (l : list A) (i j : nat) a b :
  StronglySorted (descending key) l ->
  l !! i = Some a -> l !! j = Some b -> (i <= j)%nat -> key b <= key a.
Proof.
  intros Hs. revert i j. induction Hs as [|x l Hl IH Hall]; intros i j Ha Hb Hij; [done|].
  destruct i as [|i], j as [|j]; simpl in *; try lia.
  - injection Ha as ->. injection Hb as ->. lia.
  - injection Ha as ->. rewrite Forall_forall in Hall.
    apply Hall. by eapply list_elem_of_lookup_2.
  - apply (IH i j); [done|done|lia].
Qed.

Lemma insertion_point_S (comparefn : A -> A -> number) fuel pivot sorted left right :
  insertion_point comparefn (S fuel) pivot sorted left right
  = if (left <? right)%nat then
      match sorted !! (left + (right - left) / 2)%nat with
      | Some e =>
          if SortCompare comparefn pivot e <? 0
          then insertion_point comparefn fuel pivot sorted left (left + (right - left) / 2)
          else insertion_point comparefn fuel pivot sorted (S (left + (right - left) / 2)) right
      | None => left
      end
    else left.
Proof. reflexivity. Qed.

(** The binary search ends between the elements that go before the pivot
    and those that go after it. *)
Lemma insertion_point_spec pivot sorted fuel left right :
  StronglySorted (descending key) sorted ->
  (left <= right)%nat -> (right <= length sorted)%nat -> (right - left <= fuel)%nat ->
  (forall i e, (i < left)%nat -> sorted !! i = Some e -> key pivot <= key e) ->
  (forall i e, (right <= i)%nat -> sorted !! i = Some e -> key e < key pivot) ->
  (insertion_point (by_key key) fuel pivot sorted left right <= length sorted)%nat
  /\ (forall i e,
        (i < insertion_point (by_key key) fuel pivot sorted left right)%nat ->
        sorted !! i = Some e -> key pivot <= key e)
  /\ (forall i e,
        (insertion_point (by_key key) fuel pivot sorted left right <= i)%nat ->
        sorted !! i = Some e -> key e < key pivot).
Proof.
  intros Hs. revert left right.
  induction fuel as [|fuel IH]; intros left right Hlr Hr Hfuel Hlo Hhi.
  { assert (left = right) as -> by lia. simpl. eauto. }
  rewrite insertion_point_S.
  destruct (left <? right)%nat eqn:Hlt.
  2:{ apply Nat.ltb_ge in Hlt. assert (left = right) as -> by lia. eauto. }
  apply Nat.ltb_lt in Hlt.
  assert ((right - left) / 2 < right - left)%nat as Hmid by (apply Nat.div_lt; lia).
  set (mid := (left + (right - left) / 2)%nat) in *.
  assert (mid < right)%nat as Hmr by (subst mid; lia).
  assert (left <= mid)%nat as Hlm by (subst mid; lia).
  clearbody mid.
  destruct (sorted !! mid) as [e|] eqn:He.
  2:{ apply lookup_ge_None in He. lia. }
  change (SortCompare (by_key key) pivot e) with (key e - key pivot).
  destruct (key e - key pivot <? 0) eqn:Hc.
  - apply Z.ltb_lt in Hc. apply IH; try lia; [done|].
    intros i e' Hi He'.
    pose proof (strongly_sorted_lookup sorted mid i e e' Hs He He' Hi). lia.
  - apply Z.ltb_ge in Hc. apply IH; try lia; [|done].
    intros i e' Hi He'.
    assert (i <= mid)%nat as Him by lia.
    pose proof (strongly_sorted_lookup sorted i mid e' e Hs He' He Him). lia.
Qed.

Lemma binary_insert_spec sorted pivot :
  StronglySorted (descending key) sorted ->
  StronglySorted (descending key) (binary_insert (by_key key) sorted pivot)
  /\ forall v,
       filter (fun a => key a = v) (binary_insert (by_key key) sorted pivot)
       = filter (fun a => key a = v) (sorted ++ [pivot])%list.
Proof.
  intros Hs. unfold binary_insert.
  destruct (insertion_point_spec pivot sorted (length sorted) 0 (length sorted) Hs)
    as (Hp & Hlo & Hhi); try lia.
  { intros i e Hi He. apply lookup_lt_Some in He. lia. }
  set (p := insertion_point (by_key key) (length sorted) pivot sorted 0 (length sorted)) in *.
  assert (forall e, e ∈ take p sorted -> key pivot <= key e) as Htake.
  { intros e He. apply elem_of_take in He as (i & He & Hi). by apply (Hlo i). }
  assert (forall e, e ∈ drop p sorted -> key e < key pivot) as Hdrop.
  { intros e He. apply list_elem_of_lookup in He as (i & He).
    rewrite lookup_drop in He. apply (Hhi (p + i)%nat); [lia|done]. }
  pose proof Hs as Hsplit. rewrite <- (take_drop p sorted) in Hsplit.
  apply StronglySorted_app in Hsplit as (Hcross & Hst & Hsd).
  split.
  - apply StronglySorted_app. split; [|split; [done|]].
    + intros x1 x2 Hx1 Hx2. apply elem_of_cons in Hx2 as [->|Hx2].
      * unfold descending. by apply Htake.
      * by apply Hcross.
    + constructor; [done|]. apply Forall_forall. intros e He.
      unfold descending. specialize (Hdrop e He). lia.
  - intros v.
    pose proof (f_equal (filter (fun a => key a = v)) (take_drop p sorted)) as Hfilter.
    rewrite filter_app in Hfilter.
    rewrite !filter_app, <- Hfilter, !filter_cons, filter_nil.
    destruct (decide (key pivot = v)) as [<-|Hne]; [|by rewrite app_nil_r].
    assert (filter (fun a => key a = key pivot) (drop p sorted) = []) as ->.
    { apply filter_none. intros e He. specialize (Hdrop e He). lia. }
    by rewrite app_nil_r.
Qed.

Lemma foldl_binary_insert_spec rest run :
  StronglySorted (descending key) run ->
  StronglySorted (descending key) (foldl (binary_insert (by_key key)) run rest)
  /\ forall v,
       filter (fun a => key a = v) (foldl (binary_insert (by_key key)) run rest)
       = filter (fun a => key a = v) (run ++ rest)%list.
Proof.
  revert run. induction rest as [|pivot rest IH]; intros run Hs; simpl.
  { split; [done|]. intros v. by rewrite app_nil_r. }
  destruct (binary_insert_spec run pivot Hs) as [Hs' Hf'].
  destruct (IH _ Hs') as [Hs'' Hf'']. split; [done|].
  intros v. rewrite Hf'', (filter_app _ (binary_insert (by_key key) run pivot)), Hf'.
  rewrite <- filter_app. by rewrite <- app_assoc.
Qed.

(** An ascending run of the comparator descends by key; a strictly
    descending run ascends strictly by key. *)
Lemma run_extend_spec descending previous l run rest :
  run_extend (by_key key) descending previous l = (run, rest) ->
  l = (run ++ rest)%list
  /\ Sorted (fun a b => if descending then key a < key b else key b <= key a)
       (previous :: run).
Proof.
  revert previous run rest. induction l as [|current l IH]; intros previous run rest; simpl.
  { intros Heq; injection Heq as <- <-. split; [done|]. by repeat constructor. }
  change (SortCompare (by_key key) current previous) with (key previous - key current).
  destruct (if descending then key previous - key current <? 0
            else 0 <=? key previous - key current) eqn:Hc.
  - destruct (run_extend (by_key key) descending current l) as [run' rest'] eqn:Hrun.
    intros Heq; injection Heq as <- <-. destruct (IH current run' rest' Hrun) as [-> Hsorted].
    split; [done|]. constructor; [done|]. constructor.
    destruct descending; [apply Z.ltb_lt in Hc|apply Z.leb_le in Hc]; lia.
  - intros Heq; injection Heq as <- <-. split; [done|]. by repeat constructor.
Qed.

Lemma strictly_ascending_filter (l : list A) v :
  StronglySorted (fun a b => key a < key b) l ->
  (length (filter (fun a => key a = v) l) <= 1)%nat.
Proof.
  induction 1 as [|x l Hl IH Hall]; [simpl; lia|].
  rewrite filter_cons. destruct (decide (key x = v)) as [Hx|Hx]; [|done].
  assert (filter (fun a => key a = v) l = []) as ->; [|simpl; lia].
  apply filter_none. intros e He.
  rewrite Forall_forall in Hall. specialize (Hall e He). lia.
Qed.

Lemma reverse_short (l : list A) : (length l <= 1)%nat -> reverse l = l.
Proof. destruct l as [|x [|y l]]; simpl; [done|done|lia]. Qed.

Lemma strictly_ascending_reverse (l : list A) :
  StronglySorted (fun a b => key a < key b) l ->
  StronglySorted (descending key) (reverse l).
Proof.
  induction 1 as [|x l Hl IH Hall]; [constructor|].
  rewrite reverse_cons. apply StronglySorted_app. split; [|split; [done|]].
  - intros x1 x2 Hx1 Hx2. apply list_elem_of_singleton in Hx2 as ->.
    rewrite elem_of_reverse in Hx1. rewrite Forall_forall in Hall.
    specialize (Hall x1 Hx1). unfold descending. lia.
  - by repeat constructor.
Qed.

Lemma count_and_make_run_spec l run rest :
  count_and_make_run (by_key key) l = (run, rest) ->
  StronglySorted (descending key) run
  /\ forall v,
       filter (fun a => key a = v) (run ++ rest)%list = filter (fun a => key a = v) l.
Proof.
  unfold count_and_make_run. destruct l as [|x0 [|x1 l]].
  - intros Heq; injection Heq as <- <-. split; [constructor|done].
  - intros Heq; injection Heq as <- <-. split; [by repeat constructor|done].
  - change (SortCompare (by_key key) x1 x0) with (key x0 - key x1).
    destruct (run_extend (by_key key) (key x0 - key x1 <? 0) x1 l) as [run' rest'] eqn:Hrun.
    apply run_extend_spec in Hrun as [-> Hsorted].
    destruct (key x0 - key x1 <? 0) eqn:Hd; intros Heq; injection Heq as <- <-.
    + apply Z.ltb_lt in Hd.
      assert (StronglySorted (fun a b => key a < key b) (x0 :: x1 :: run')) as Hss.
      { apply Sorted_StronglySorted; [intros a b c ??; lia|].
        constructor; [done|]. constructor. lia. }
      split; [by apply strictly_ascending_reverse|].
      intros v. rewrite filter_app, filter_reverse.
      rewrite reverse_short by (by apply strictly_ascending_filter).
      by rewrite <- filter_app.
    + apply Z.ltb_ge in Hd. split; [|done].
      apply Sorted_StronglySorted; [apply descending_trans|].
      constructor; [done|]. constructor. unfold descending. lia.
Qed.

(** On a short array V8 returns the array of the model. *)
Lemma V8_sort_consistent l :
  (length l < 64)%nat -> V8_sort (by_key key) l = Some (sort (by_key key) l).
Proof.
  intros Hlen. unfold V8_sort. apply Nat.ltb_lt in Hlen. rewrite Hlen.
  destruct (count_and_make_run (by_key key) l) as [run rest] eqn:Hrun.
  apply count_and_make_run_spec in Hrun as [Hs Hf].
  destruct (foldl_binary_insert_spec rest run Hs) as [Hs' Hf'].
  f_equal. apply sort_unique; [by apply StronglySorted_Sorted|].
  intros v. by rewrite Hf', Hf.
Qed.
End V8Facts.

(** Only the comparisons between elements of the array matter to V8 too. *)
Section V8Ext.
Context {A : Type}.
Variables comparefn comparefn' : A -> A -> number.

Lemma run_extend_app descending previous l run rest :
  run_extend comparefn descending previous l = (run, rest) -> l = (run ++ rest)%list.
Proof.
  revert previous run rest. induction l as [|current l IH]; intros previous run rest; simpl.
  { intros Heq; injection Heq as <- <-. done. }
  destruct (if descending then SortCompare comparefn current previous <? 0
            else 0 <=? SortCompare comparefn current previous).
  - destruct (run_extend comparefn descending current l) as [run' rest'] eqn:Hrun.
    intros Heq; injection Heq as <- <-. by rewrite (IH current run' rest' Hrun).
  - intros Heq; injection Heq as <- <-. done.
Qed.

Lemma count_and_make_run_perm l run rest :
  count_and_make_run comparefn l = (run, rest) -> (run ++ rest)%list ≡ₚ l.
Proof.
  unfold count_and_make_run. destruct l as [|x0 [|x1 l]].
  - intros Heq; injection Heq as <- <-. done.
  - intros Heq; injection Heq as <- <-. done.
  - destruct (run_extend comparefn (SortCompare comparefn x1 x0 <? 0) x1 l)
      as [run' rest'] eqn:Hrun.
    apply run_extend_app in Hrun as ->.
    destruct (SortCompare comparefn x1 x0 <? 0); intros Heq; injection Heq as <- <-.
    + by rewrite reverse_Permutation.
    + done.
Qed.

Lemma binary_insert_perm sorted pivot :
  binary_insert comparefn sorted pivot ≡ₚ pivot :: sorted.
Proof.
  unfold binary_insert.
  rewrite <- Permutation_middle. by rewrite take_drop.
Qed.

Lemma SortCompare_ext x y :
  comparefn x y = comparefn' x y -> SortCompare comparefn x y = SortCompare comparefn' x y.
Proof. unfold SortCompare. by intros ->. Qed.

Lemma run_extend_ext descending previous l :
  (forall x y, x ∈ previous :: l -> y ∈ previous :: l -> comparefn x y = comparefn' x y) ->
  run_extend comparefn descending previous l = run_extend comparefn' descending previous l.
Proof.
  revert previous. induction l as [|current l IH]; intros previous Hext; [done|]. simpl.
  rewrite (SortCompare_ext current previous) by (apply Hext; [right|]; left).
  rewrite IH; [done|]. intros x y Hx Hy. apply Hext; by right.
Qed.

Lemma count_and_make_run_ext l :
  (forall x y, x ∈ l -> y ∈ l -> comparefn x y = comparefn' x y) ->
  count_and_make_run comparefn l = count_and_make_run comparefn' l.
Proof.
  intros Hext. unfold count_and_make_run. destruct l as [|x0 [|x1 l]]; [done|done|].
  rewrite (SortCompare_ext x1 x0) by (apply Hext; [right|]; left).
  rewrite run_extend_ext; [done|]. intros x y Hx Hy. apply Hext; by right.
Qed.

Lemma insertion_point_ext fuel pivot sorted left right :
  (forall e, e ∈ sorted -> comparefn pivot e = comparefn' pivot e) ->
  insertion_point comparefn fuel pivot sorted left right
  = insertion_point comparefn' fuel pivot sorted left right.
Proof.
  intros Hext. revert left right. induction fuel as [|fuel IH]; intros left right; [done|].
  rewrite !insertion_point_S. destruct (left <? right)%nat; [|done].
  destruct (sorted !! (left + (right - left) / 2)%nat) as [e|] eqn:He; [|done].
  rewrite (SortCompare_ext pivot e) by (apply Hext; by eapply list_elem_of_lookup_2).
  by rewrite !IH.
Qed.

Lemma binary_insert_ext sorted pivot :
  (forall e, e ∈ sorted -> comparefn pivot e = comparefn' pivot e) ->
  binary_insert comparefn sorted pivot = binary_insert comparefn' sorted pivot.
Proof. intros Hext. unfold binary_insert. by rewrite insertion_point_ext. Qed.

Lemma foldl_binary_insert_ext rest run :
  (forall x y, x ∈ (run ++ rest)%list -> y ∈ (run ++ rest)%list ->
               comparefn x y = comparefn' x y) ->
  foldl (binary_insert comparefn) run rest = foldl (binary_insert comparefn') run rest.
Proof.
  revert run. induction rest as [|pivot rest IH]; intros run Hext; [done|]. simpl.
  rewrite <- (binary_insert_ext run pivot).
  - apply IH. intros x y Hx Hy.
    apply Hext; rewrite elem_of_app, elem_of_cons;
      [apply elem_of_app in Hx as [Hx|Hx]|apply elem_of_app in Hy as [Hy|Hy]];
      try (rewrite binary_insert_perm in Hx); try (rewrite binary_insert_perm in Hy);
      try (apply elem_of_cons in Hx as [->|Hx]); try (apply elem_of_cons in Hy as [->|Hy]);
      tauto.
  - intros e He. apply Hext; rewrite elem_of_app, elem_of_cons; tauto.
Qed.

Lemma V8_sort_ext_in l :
  (forall x y, x ∈ l -> y ∈ l -> comparefn x y = comparefn' x y) ->
  V8_sort comparefn l = V8_sort comparefn' l.
Proof.
  intros Hext. unfold V8_sort. destruct (length l <? 64)%nat; [|done].
  rewrite <- (count_and_make_run_ext l Hext).
  destruct (count_and_make_run comparefn l) as [run rest] eqn:Hrun.
  apply count_and_make_run_perm in Hrun.
  rewrite (foldl_binary_insert_ext rest run); [done|].
  intros x y Hx Hy. rewrite Hrun in Hx, Hy. by apply Hext.
Qed.
End V8Ext.

(** Under the votes key, and under the date keys when every creation date is
    valid, what V8 makes of [[...questions].sort(...)] for a short collection
    is [order]. *)
Lemma V8_sort_order Date_getTime sortBy qs :
  consistent_order Date_getTime sortBy qs ->
  (length qs < 64)%nat ->
  V8_sort (compareFn Date_getTime sortBy) qs = Some (order Date_getTime qs sortBy).
Proof.
  intros Hc Hlen. destruct (decide (sortBy = "votes")) as [->|Hne].
  - rewrite order_votes. by apply (V8_sort_consistent voteCount).
  - destruct Hc as [?|Hvalid]; [done|].
    rewrite order_dates by done.
    rewrite <- (V8_sort_consistent (timestamp Date_getTime)) by done.
    apply V8_sort_ext_in. intros a b Ha Hb.
    rewrite compareFn_dates by done. unfold by_key, timestamp.
    pose proof (Hvalid a Ha). pose proof (Hvalid b Hb).
    by destruct (Date_getTime (createdAt a)), (Date_getTime (createdAt b)).
Qed.

(** * The displayed order: claims C5, C6, C7 *)

(** C5, as the specification states it, fails where a creation date is no
    date: the comparator is then inconsistent and the engine need not keep
    questions of equal sort value in their order.  On V8, under the newest
    key, q7 comes out before q6, which was delivered before it with the same
    date. *)
Lemma sort_reorders_equal_dates_with_invalid_date :
  exists out,
    V8_sort (compareFn example_getTime "newest") example_questions_invalid_date = Some out
    /\ map _id out = ["q2"; "q4"; "q5"; "q7"; "q1"; "q3"; "q6"]
    /\ map _id (filter (fun q => sortValue example_getTime "newest" q = Num 1704153600000)
                  example_questions_invalid_date)
       = ["q2"; "q4"; "q5"; "q6"; "q7"]
    /\ map _id (filter (fun q => sortValue example_getTime "newest" q = Num 1704153600000) out)
       = ["q2"; "q4"; "q5"; "q7"; "q6"]
    /\ filter (fun q => sortValue example_getTime "newest" q = Num 1704153600000) out
       <> filter (fun q => sortValue example_getTime "newest" q = Num 1704153600000)
            example_questions_invalid_date.
Proof.
  eexists. split; [reflexivity|]. split; [reflexivity|]. split; [reflexivity|].
  split; [reflexivity|]. vm_compute. discriminate.
Qed.

(** C5, amended. For every question collection and every sort key, a render
    computes [sortedQuestions] as a permutation of the collection (nothing
    lost, nothing duplicated), and the array held in the state is left as it
    was: the sort runs on a copy, at a reference of its own.  Under the votes
    key, and under the date keys when every creation date is valid, the
    questions of equal sort value keep their relative order; the result is
    then [order], which is what V8 returns for a collection shorter than
    64. *)
Theorem sortedQuestions_permutation_stable_pure Date_getTime w qs :
  heap w !! questions (state w) = Some qs ->
  exists (sorted : loc) (w' : World) (out : list Question),
    sortedQuestions Date_getTime (state w) w = (Normal sorted, w')
    /\ heap w' !! sorted = Some out
    /\ out ≡ₚ qs
    /\ sorted <> questions (state w)
    /\ heap w' !! questions (state w) = Some qs
    /\ (forall l xs, heap w !! l = Some xs -> heap w' !! l = Some xs)
    /\ state w' = state w
    /\ (consistent_order Date_getTime (sortBy (state w)) qs ->
        out = order Date_getTime qs (sortBy (state w))
        /\ (forall v,
              filter (fun q => sortValue Date_getTime (sortBy (state w)) q = v) out
              = filter (fun q => sortValue Date_getTime (sortBy (state w)) q = v) qs)
        /\ ((length qs < 64)%nat ->
            V8_sort (compareFn Date_getTime (sortBy (state w))) qs = Some out)).
Proof.
  intros Hqs.
  exists (length (heap w)),
    (with_heap (heap w ++ [order Date_getTime qs (sortBy (state w))]) w),
    (order Date_getTime qs (sortBy (state w))).
  pose proof (lookup_lt_Some _ _ _ Hqs) as Hlt.
  split; [by apply sortedQuestions_run|].
  split; [simpl; rewrite lookup_app_r by lia; by rewrite Nat.sub_diag|].
  split; [apply order_perm|].
  split; [lia|].
  split; [simpl; by rewrite lookup_app_l|].
  split; [intros l xs Hl; simpl; rewrite lookup_app_l; [done|]; by eapply lookup_lt_Some|].
  split; [done|].
  intros Hconsistent. split; [done|].
  split; [intros v; apply order_stable|].
  intros Hlen. by apply V8_sort_order.
Qed.

Lemma sortedQuestions_permutation_stable_pure_witness :
  exists (sorted : loc) (w' : World) (out : list Question),
    sortedQuestions example_getTime (state example_world) example_world = (Normal sorted, w')
    /\ heap w' !! sorted = Some out
    /\ out ≡ₚ example_questions
    /\ sorted <> questions (state example_world)
    /\ heap w' !! questions (state example_world) = Some example_questions
    /\ (forall l xs, heap example_world !! l = Some xs -> heap w' !! l = Some xs)
    /\ state w' = state example_world
    /\ (consistent_order example_getTime (sortBy (state example_world)) example_questions ->
        out = order example_getTime example_questions (sortBy (state example_world))
        /\ (forall v,
              filter (fun q => sortValue example_getTime (sortBy (state example_world)) q = v)
                out
              = filter (fun q => sortValue example_getTime (sortBy (state example_world)) q = v)
                  example_questions)
        /\ ((length example_questions < 64)%nat ->
            V8_sort (compareFn example_getTime (sortBy (state example_world)))
              example_questions = Some out)).
Proof.
  apply (sortedQuestions_permutation_stable_pure example_getTime example_world example_questions).
  reflexivity.
Defined.

(** Sorting the array of the state itself, without the copy, would change it:
    the heap tells the two apart. *)
Example sort_without_copy_mutates :
  heap (exec (Array_sort (compareFn example_getTime "votes") 1%nat) example_world) !! 1%nat
  <> Some example_questions.
Proof. vm_compute. discriminate. Qed.

(** C6. Under the votes key every adjacent pair (a, b) of the displayed order
    has voteCount(a) >= voteCount(b); a collection with vote counts 5, 12, 3
    is displayed with vote counts 12, 5, 3. *)
Theorem most_votes_descending Date_getTime qs :
  (forall (i : nat) a b,
     order Date_getTime qs "votes" !! i = Some a ->
     order Date_getTime qs "votes" !! S i = Some b ->
     voteCount a >= voteCount b)
  /\ (voteCount <$> qs = [5; 12; 3] ->
      voteCount <$> order Date_getTime qs "votes" = [12; 5; 3]).
Proof.
  split.
  - intros i a b Ha Hb.
    pose proof (sorted_adjacent voteCount _ i a b (order_votes_sorted Date_getTime qs) Ha Hb).
    lia.
  - intros Hv.
    destruct qs as [|a [|b [|c [|d qs]]]]; try discriminate Hv.
    injection Hv as Ha Hb Hc.
    rewrite order_votes. cbv [sort sort_insert SortCompare by_key].
    rewrite Hb, Hc. simpl. rewrite Ha, Hb. simpl. rewrite Hc. simpl.
    by rewrite Ha, Hb, Hc.
Qed.

Lemma most_votes_descending_witness :
  voteCount <$> order example_getTime example_questions "votes" = [12; 5; 3].
Proof.
  apply (proj2 (most_votes_descending example_getTime example_questions)).
  reflexivity.
Defined.



(** * Moderation: claims C1, C2, C3, C8, C9 *)

(** C1. When the viewer is absent or is not an admin, or when the viewer
    declines the confirmation, [handleDeleteQuestion] and [handleBanUser] issue
    no network request and change nothing of the feed: not the state (the
    reference to the collection, the loading flag, the error, the sort key),
    not any array; no toast is emitted either. *)
Theorem moderation_guarded env sc w :
  (forall questionId questionTitle,
     ~ is_admin (scope_user sc)
     \/ window_confirm env (delete_prompt questionTitle) = false ->
     let w' := exec (handleDeleteQuestion env sc questionId questionTitle) w in
     requests w' = requests w /\ state w' = state w /\ heap w' = heap w
     /\ toasts w' = toasts w)
  /\
  (forall userId username,
     ~ is_admin (scope_user sc)
     \/ window_confirm env (ban_prompt username) = false ->
     let w' := exec (handleBanUser env sc userId username) w in
     requests w' = requests w /\ state w' = state w /\ heap w' = heap w
     /\ toasts w' = toasts w).
Proof.
  split.
  - intros questionId questionTitle Hguard. unfold exec.
    destruct (not_admin (scope_user sc)) eqn:Hadmin.
    + by rewrite handleDeleteQuestion_not_admin.
    + destruct Hguard as [Hno|Hno].
      * apply not_is_admin_not_admin in Hno. congruence.
      * by rewrite handleDeleteQuestion_declined.
  - intros userId username Hguard. unfold exec.
    destruct (not_admin (scope_user sc)) eqn:Hadmin.
    + by rewrite handleBanUser_not_admin.
    + destruct Hguard as [Hno|Hno].
      * apply not_is_admin_not_admin in Hno. congruence.
      * by rewrite handleBanUser_declined.
Qed.

(** A member who reaches the delete handler, and an admin who declines the ban. *)
Lemma moderation_guarded_witness :
  (let w' := exec (handleDeleteQuestion example_env
                     (scope_of example_member example_world) "q1" "Qq1") example_world in
   requests w' = requests example_world /\ state w' = state example_world
   /\ heap w' = heap example_world /\ toasts w' = toasts example_world)
  /\
  (let w' := exec (handleBanUser example_env_declined
                     (scope_of example_admin example_world) "u1" "ann") example_world in
   requests w' = requests example_world /\ state w' = state example_world
   /\ heap w' = heap example_world /\ toasts w' = toasts example_world).
Proof.
  split.
  - apply (proj1 (moderation_guarded example_env
                    (scope_of example_member example_world) example_world)).
    left. intros (u & Hu & Hr). injection Hu as <-. discriminate Hr.
  - apply (proj2 (moderation_guarded example_env_declined
                    (scope_of example_admin example_world) example_world)).
    right. reflexivity.
Defined.

(** C2. When an admin confirms the deletion of a question of the collection
    and the service answers with success, the collection that the state then
    holds has no question of that id, every question of another id is still in
    it, unchanged and in the same order, and exactly one toast is emitted, the
    success one.  The flags and the sort key are as before. *)
Theorem delete_success_removes env user w qs questionId questionTitle response :
  heap w !! questions (state w) = Some qs ->
  is_admin user ->
  window_confirm env (delete_prompt questionTitle) = true ->
  window_fetch env (delete_request env questionId) = FetchResolved response ->
  ok response = true ->
  let w' := exec (handleDeleteQuestion env (scope_of user w) questionId questionTitle) w in
  exists qs',
    heap w' !! questions (state w') = Some qs'
    /\ (forall q, q ∈ qs' -> _id q <> questionId)
    /\ (forall q, q ∈ qs -> _id q <> questionId -> q ∈ qs')
    /\ qs' = removeQuestion questionId qs
    /\ toasts w' = (toasts w ++ [deleted_toast])%list
    /\ requests w' = (requests w ++ [delete_request env questionId])%list
    /\ isLoading (state w') = isLoading (state w)
    /\ error (state w') = error (state w)
    /\ sortBy (state w') = sortBy (state w)
    /\ heap w' !! questions (state w) = Some qs.
Proof.
  intros Hqs Hadmin Hyes Hfetch Hok w'. subst w'. unfold exec.
  apply is_admin_not_admin in Hadmin.
  rewrite (handleDeleteQuestion_succeeded env (scope_of user w) w
             questionId questionTitle response qs) by done.
  exists (removeQuestion questionId qs). simpl.
  split; [rewrite lookup_app_r by lia; by rewrite Nat.sub_diag|].
  split; [intros q Hq; by apply list_elem_of_filter in Hq as [? _]|].
  split; [intros q Hq Hne; by apply list_elem_of_filter|].
  repeat (split; [done|]).
  apply lookup_app_l_Some, Hqs.
Qed.

(** Scenario C: the admin deletes q1 of three questions. *)
Lemma delete_success_removes_witness :
  let w' := exec (handleDeleteQuestion example_env (scope_of example_admin example_world)
                    "q1" "Qq1") example_world in
  exists qs',
    heap w' !! questions (state w') = Some qs'
    /\ (forall q, q ∈ qs' -> _id q <> "q1")
    /\ (forall q, q ∈ example_questions -> _id q <> "q1" -> q ∈ qs')
    /\ qs' = removeQuestion "q1" example_questions
    /\ toasts w' = (toasts example_world ++ [deleted_toast])%list
    /\ requests w' = (requests example_world ++ [delete_request example_env "q1"])%list
    /\ isLoading (state w') = isLoading (state example_world)
    /\ error (state w') = error (state example_world)
    /\ sortBy (state w') = sortBy (state example_world)
    /\ heap w' !! questions (state example_world) = Some example_questions.
Proof.
  apply (delete_success_removes example_env example_admin example_world example_questions
           "q1" "Qq1" example_ok).
  - reflexivity.
  - exists {| role := "admin" |}. split; reflexivity.
  - reflexivity.
  - reflexivity.
  - reflexivity.
Defined.

(** C3. When a confirmed moderation call of an admin fails, by a rejected
    [fetch] or by a response that is not ok, the state and every array are as
    before, exactly one request was issued (no retry), and exactly one toast
    is emitted, the destructive one, whose description is the message of the
    error thrown: the message the transport error carries, and for a response
    that is not ok the message of the error the handler throws for it. *)
Theorem moderation_failure_reported env sc w :
  is_admin (scope_user sc) ->
  (forall questionId questionTitle e,
     window_confirm env (delete_prompt questionTitle) = true ->
     thrown_by "Failed to delete question"
       (window_fetch env (delete_request env questionId)) = Some e ->
     let w' := exec (handleDeleteQuestion env sc questionId questionTitle) w in
     state w' = state w /\ heap w' = heap w
     /\ requests w' = (requests w ++ [delete_request env questionId])%list
     /\ exists t,
          toasts w' = (toasts w ++ [t])%list
          /\ toast_title t = "Error" /\ variant t = Some "destructive"
          /\ toast_description t = or_else (message e) "Failed to delete question"
          /\ (truthy (message e) = true -> Some (toast_description t) = message e))
  /\
  (forall userId username e,
     window_confirm env (ban_prompt username) = true ->
     thrown_by "Failed to ban user" (window_fetch env (ban_request env userId)) = Some e ->
     let w' := exec (handleBanUser env sc userId username) w in
     state w' = state w /\ heap w' = heap w
     /\ requests w' = (requests w ++ [ban_request env userId])%list
     /\ exists t,
          toasts w' = (toasts w ++ [t])%list
          /\ toast_title t = "Error" /\ variant t = Some "destructive"
          /\ toast_description t = or_else (message e) "Failed to ban user"
          /\ (truthy (message e) = true -> Some (toast_description t) = message e)).
Proof.
  intros Hadmin. apply is_admin_not_admin in Hadmin. split.
  - intros questionId questionTitle e Hyes He w'. subst w'. unfold exec.
    rewrite (handleDeleteQuestion_failed env sc w questionId questionTitle e) by done.
    simpl. repeat (split; [done|]).
    exists (error_toast e "Failed to delete question").
    repeat (split; [done|]). apply or_else_truthy.
  - intros userId username e Hyes He w'. subst w'. unfold exec.
    rewrite (handleBanUser_failed env sc w userId username e) by done.
    simpl. repeat (split; [done|]).
    exists (error_toast e "Failed to ban user").
    repeat (split; [done|]). apply or_else_truthy.
Qed.

(** Scenario D: the ban is answered 401. *)
Lemma moderation_failure_reported_witness :
  let w' := exec (handleBanUser example_env_unauthorized
                    (scope_of example_admin example_world) "u1" "ann") example_world in
  state w' = state example_world /\ heap w' = heap example_world
  /\ requests w' = (requests example_world ++ [ban_request example_env_unauthorized "u1"])%list
  /\ exists t,
       toasts w' = (toasts example_world ++ [t])%list
       /\ toast_title t = "Error" /\ variant t = Some "destructive"
       /\ toast_description t = or_else (message (Error "Failed to ban user")) "Failed to ban user"
       /\ (truthy (message (Error "Failed to ban user")) = true ->
           Some (toast_description t) = message (Error "Failed to ban user")).
Proof.
  apply (proj2 (moderation_failure_reported example_env_unauthorized
                  (scope_of example_admin example_world) example_world
                  ltac:(exists {| role := "admin" |}; split; reflexivity))
           "u1" "ann" (Error "Failed to ban user")).
  - reflexivity.
  - reflexivity.
Defined.

Lemma removeQuestion_twice id qs :
  removeQuestion id (removeQuestion id qs) = removeQuestion id qs.
Proof.
  unfold removeQuestion. induction qs as [|q qs IH]; [done|].
  rewrite (filter_cons _ q qs). destruct (decide (_id q <> id)) as [Hq|Hq]; [|done].
  by rewrite filter_cons_True, IH.
Qed.

Lemma removeQuestion_absent id qs :
  (forall q, q ∈ qs -> _id q <> id) -> removeQuestion id qs = qs.
Proof.
  unfold removeQuestion. induction qs as [|q qs IH]; intros Habs; [done|].
  rewrite filter_cons_True by (apply Habs; left).
  rewrite IH; [done|]. intros q' Hq'. apply Habs. by right.
Qed.

(** C8. Removing a question id from a collection twice gives the collection
    that removing it once gives, and removing an id that no question has
    gives the collection back: a no-op, no error.  So a second confirmed,
    successful deletion of the same id leaves the collection of the first. *)
Theorem removeQuestion_idempotent id qs :
  removeQuestion id (removeQuestion id qs) = removeQuestion id qs
  /\ ((forall q, q ∈ qs -> _id q <> id) -> removeQuestion id qs = qs)
  /\ (forall env user w questionTitle response,
        heap w !! questions (state w) = Some qs ->
        is_admin user ->
        window_confirm env (delete_prompt questionTitle) = true ->
        window_fetch env (delete_request env id) = FetchResolved response ->
        ok response = true ->
        let w1 := exec (handleDeleteQuestion env (scope_of user w) id questionTitle) w in
        let w2 := exec (handleDeleteQuestion env (scope_of user w1) id questionTitle) w1 in
        completion (handleDeleteQuestion env (scope_of user w1) id questionTitle) w1
          = Normal tt
        /\ heap w1 !! questions (state w1) = Some (removeQuestion id qs)
        /\ heap w2 !! questions (state w2) = Some (removeQuestion id qs)).
Proof.
  split; [apply removeQuestion_twice|]. split; [apply removeQuestion_absent|].
  intros env user w questionTitle response Hqs Hadmin Hyes Hfetch Hok w1 w2.
  apply is_admin_not_admin in Hadmin.
  split; [apply handleDeleteQuestion_completes|].
  assert (heap w1 !! questions (state w1) = Some (removeQuestion id qs)) as Hw1.
  { subst w1. unfold exec.
    rewrite (handleDeleteQuestion_succeeded env (scope_of user w) w
               id questionTitle response qs) by done.
    simpl. rewrite lookup_app_r by lia. by rewrite Nat.sub_diag. }
  split; [done|].
  subst w2. unfold exec.
  rewrite (handleDeleteQuestion_succeeded env (scope_of user w1) w1
             id questionTitle response (removeQuestion id qs)) by done.
  simpl. rewrite lookup_app_r by lia. rewrite Nat.sub_diag. simpl.
  by rewrite removeQuestion_twice.
Qed.

(** An id that is not in the collection, and q1 deleted twice over. *)
Lemma removeQuestion_idempotent_witness :
  removeQuestion "q9" example_questions = example_questions
  /\ (let w1 := exec (handleDeleteQuestion example_env (scope_of example_admin example_world)
                        "q1" "Qq1") example_world in
      let w2 := exec (handleDeleteQuestion example_env (scope_of example_admin w1)
                        "q1" "Qq1") w1 in
      completion (handleDeleteQuestion example_env (scope_of example_admin w1) "q1" "Qq1") w1
        = Normal tt
      /\ heap w1 !! questions (state w1) = Some (removeQuestion "q1" example_questions)
      /\ heap w2 !! questions (state w2) = Some (removeQuestion "q1" example_questions)).
Proof.
  split.
  - apply (proj1 (proj2 (removeQuestion_idempotent "q9" example_questions))).
    intros q Hq.
    repeat (apply elem_of_cons in Hq as [->|Hq]; [vm_compute; discriminate|]).
    by apply elem_of_nil in Hq.
  - apply (proj2 (proj2 (removeQuestion_idempotent "q1" example_questions))
             example_env example_admin example_world "Qq1" example_ok).
    + reflexivity.
    + exists {| role := "admin" |}. split; reflexivity.
    + reflexivity.
    + reflexivity.
    + reflexivity.
Defined.

(** C9, as the specification states it, fails: with no token in the session
    store a confirmed admin deletion, and a confirmed admin ban, still send
    their request, with the header [Authorization: Bearer null]. *)
Lemma no_token_request_is_sent :
  localStorage_getItem example_env_no_token "token" = None
  /\ requests (exec (handleDeleteQuestion example_env_no_token
                       (scope_of example_admin example_world) "q1" "Qq1") example_world)
     = [ {| url := "http://localhost:5000/api/questions/q1/admin-delete";
            method := "DELETE";
            headers := [("Authorization", "Bearer null")] |} ]
  /\ requests (exec (handleBanUser example_env_no_token
                       (scope_of example_admin example_world) "u1" "ann") example_world)
     = [ {| url := "http://localhost:5000/api/admin/ban-user/u1?banned=true";
            method := "PUT";
            headers := [("Authorization", "Bearer null")] |} ].
Proof. repeat split. Qed.

(** C9, amended. With no token in the session store, a moderation operation
    that an admin confirms is not held back: its request is sent, once, with
    the header [Authorization: Bearer null].  The handler does not crash: it
    completes normally and emits one toast with the outcome. *)
Theorem no_token_moderation_proceeds env sc w :
  is_admin (scope_user sc) ->
  localStorage_getItem env "token" = None ->
  (forall questionId questionTitle,
     window_confirm env (delete_prompt questionTitle) = true ->
     let w' := exec (handleDeleteQuestion env sc questionId questionTitle) w in
     completion (handleDeleteQuestion env sc questionId questionTitle) w = Normal tt
     /\ requests w' =
        (requests w ++
           [ {| url := backend env ++ "/api/questions/" ++ questionId ++ "/admin-delete";
                method := "DELETE";
                headers := [("Authorization", "Bearer null")] |} ])%list
     /\ exists t, toasts w' = (toasts w ++ [t])%list)
  /\
  (forall userId username,
     window_confirm env (ban_prompt username) = true ->
     let w' := exec (handleBanUser env sc userId username) w in
     completion (handleBanUser env sc userId username) w = Normal tt
     /\ requests w' =
        (requests w ++
           [ {| url := backend env ++ "/api/admin/ban-user/" ++ userId ++ "?banned=true";
                method := "PUT";
                headers := [("Authorization", "Bearer null")] |} ])%list
     /\ exists t, toasts w' = (toasts w ++ [t])%list).
Proof.
  intros Hadmin Htoken. apply is_admin_not_admin in Hadmin. split.
  - intros questionId questionTitle Hyes w'.
    split; [apply handleDeleteQuestion_completes|].
    destruct (handleDeleteQuestion_confirmed env sc questionId questionTitle w Hadmin Hyes)
      as [Hreq Htoast].
    split; [|done]. subst w'. rewrite Hreq. unfold delete_request. by rewrite Htoken.
  - intros userId username Hyes w'.
    split; [apply handleBanUser_completes|].
    destruct (handleBanUser_confirmed env sc userId username w Hadmin Hyes)
      as [Hreq Htoast].
    split; [|done]. subst w'. rewrite Hreq. unfold ban_request. by rewrite Htoken.
Qed.

Lemma no_token_moderation_proceeds_witness :
  let w' := exec (handleDeleteQuestion example_env_no_token
                    (scope_of example_admin example_world) "q1" "Qq1") example_world in
  completion (handleDeleteQuestion example_env_no_token
                (scope_of example_admin example_world) "q1" "Qq1") example_world = Normal tt
  /\ requests w' =
     (requests example_world ++
        [ {| url := backend example_env_no_token ++ "/api/questions/" ++ "q1" ++ "/admin-delete";
             method := "DELETE";
             headers := [("Authorization", "Bearer null")] |} ])%list
  /\ exists t, toasts w' = (toasts example_world ++ [t])%list.
Proof.
  apply (proj1 (no_token_moderation_proceeds example_env_no_token
                  (scope_of example_admin example_world) example_world
                  ltac:(exists {| role := "admin" |}; split; reflexivity)
                  ltac:(reflexivity)) "q1" "Qq1").
  reflexivity.
Defined.

(** * The initial load: claims C4, C10 *)

(** What a failing initial load leaves: one request, one toast, the empty
    collection of the first render, the loading flag down, and as error the
    message of what was thrown.  The error page shows when that message is a
    non-empty string. *)
Lemma initial_load_failure env e :
  load_thrown (window_fetch env (list_request env)) = Some e ->
  let w' := exec (fetchQuestions env) initial_world in
  requests w' = [list_request env]
  /\ toasts w' = [load_error_toast]
  /\ heap w' !! questions (state w') = Some []
  /\ isLoading (state w') = false
  /\ error (state w') = message e
  /\ status (state w') = (if truthy (message e) then Errored else Ready).
Proof.
  intros He w'. subst w'. unfold exec. by rewrite (fetchQuestions_failed env initial_world e).
Qed.

(** A response that is not ok always leads to the error page. *)
Lemma initial_load_not_ok env response :
  window_fetch env (list_request env) = FetchResolved response ->
  ok response = false ->
  let w' := exec (fetchQuestions env) initial_world in
  status (state w') = Errored /\ error (state w') = Some "Failed to fetch questions"
  /\ heap w' !! questions (state w') = Some [] /\ toasts w' = [load_error_toast]
  /\ requests w' = [list_request env].
Proof.
  intros Hfetch Hok w'. subst w'. unfold exec.
  rewrite (fetchQuestions_failed env initial_world (Error "Failed to fetch questions")).
  - done.
  - unfold load_thrown. by rewrite Hfetch, Hok.
Qed.

(** C4, where the code departs from it: the transport fails with an error
    whose message is the empty string.  The toast is emitted and the
    collection is empty, but the stored error is the empty string, which
    [if (error)] reads as no error: the page renders the list, not the error
    page.  The moderation handlers guard this case with a fallback message. *)
Theorem initial_load_empty_message_not_errored :
  let w' := exec (fetchQuestions example_env_silent_failure) initial_world in
  load_thrown (window_fetch example_env_silent_failure (list_request example_env_silent_failure))
    = Some (Error EmptyString)
  /\ toasts w' = [load_error_toast]
  /\ heap w' !! questions (state w') = Some []
  /\ error (state w') = Some EmptyString
  /\ status (state w') = Ready.
Proof. repeat split. Qed.

(** The same failure with the message a browser gives it is shown. *)
Example initial_load_offline_errored :
  status (state (exec (fetchQuestions example_env_offline) initial_world)) = Errored.
Proof. reflexivity. Qed.

(** C10. Whatever the initial load meets (the questions, a response that is
    not ok, a transport failure, a body that does not parse) [fetchQuestions]
    completes normally with the loading flag false: the feed is not left
    loading. *)
Theorem loading_flag_cleared env w :
  completion (fetchQuestions env) w = Normal tt
  /\ isLoading (state (exec (fetchQuestions env) w)) = false
  /\ status (state (exec (fetchQuestions env) w)) <> Loading.
Proof.
  assert (completion (fetchQuestions env) w = Normal tt
          /\ isLoading (state (exec (fetchQuestions env) w)) = false) as [Hc Hl].
  { unfold completion, exec.
    destruct (load_thrown_cases (window_fetch env (list_request env)))
      as [[e He]|(response & data & Hfetch & Hok & Hjson)].
    - by rewrite (fetchQuestions_failed env w e He).
    - by rewrite (fetchQuestions_loaded env w response data Hfetch Hok Hjson). }
  repeat (split; [done|]). unfold status. rewrite Hl.
  by destruct (truthy (error (state (exec (fetchQuestions env) w)))).
Qed.

(** * Scenarios, run end to end *)

(** Scenario A: the service delivers votes 5, 12, 3; the viewer picks the
    votes tab; the page lists 12, 5, 3, and under the first tab the newest
    question first. *)
Example scenario_load_then_sort :
  let w1 := exec (fetchQuestions example_env) initial_world in
  let w2 := exec (setSortBy "votes") w1 in
  status (state w1) = Ready
  /\ map _id <$> displayed example_getTime w1 = Some ["q3"; "q1"; "q2"]
  /\ map voteCount <$> displayed example_getTime w2 = Some [12; 5; 3].
Proof. repeat split. Qed.

(** Scenario C, as displayed: after the deletion of q1 the page lists the
    other two. *)
Example scenario_delete_then_render :
  let w' := exec (handleDeleteQuestion example_env (scope_of example_admin example_world)
                    "q1" "Qq1") example_world in
  map _id <$> displayed example_getTime w' = Some ["q2"; "q3"].
Proof. reflexivity. Qed.

(** A handler removes from the array its render saw.  Two deletions started
    from the same render each filter that array, and the second stores its
    result over the first: q1, deleted first, is listed again. *)
Example two_deletions_from_one_render :
  let sc := scope_of example_admin example_world in
  let w1 := exec (handleDeleteQuestion example_env sc "q1" "Qq1") example_world in
  let w2 := exec (handleDeleteQuestion example_env sc "q2" "Qq2") w1 in
  map _id <$> heap w1 !! questions (state w1) = Some ["q2"; "q3"]
  /\ map _id <$> heap w2 !! questions (state w2) = Some ["q1"; "q3"].
Proof. split; reflexivity. Qed.

(** * The excerpt: stripping tags *)

Lemma after_gt_has_gt s : has_gt s = bool_decide (is_Some (after_gt s)).
Proof.
  induction s as [|c s IH]; simpl; [done|].
  destruct (is_gt c); simpl; done.
Qed.

(** Inside a match, everything up to the first [>] goes. *)
Lemma strip_inside s :
  strip true s = match after_gt s with
                 | Some rest => strip false rest
                 | None => EmptyString
                 end.
Proof.
  induction s as [|c s IH]; simpl; [done|]. by destruct (is_gt c).
Qed.

(** The scanner, match by match: at a [<] that a [>] follows, the match is
    skipped; any other character is kept. *)
Lemma strip_lt c s :
  stripTags (String c s)
  = if is_lt c then
      match after_gt s with
      | Some rest => stripTags rest
      | None => String c (stripTags s)
      end
    else String c (stripTags s).
Proof.
  unfold stripTags. simpl. destruct (is_lt c); simpl; [|done].
  rewrite after_gt_has_gt, strip_inside.
  by destruct (after_gt s) as [rest|].
Qed.

Lemma strip_has_gt inside s : has_gt s = false -> has_gt (strip inside s) = false.
Proof.
  revert inside. induction s as [|c s IH]; intros inside Hs; simpl in *; [done|].
  apply orb_false_iff in Hs as [Hc Hs]. rewrite Hc, Hs, andb_false_r.
  destruct inside; simpl; [by apply IH|]. rewrite Hc. simpl. by apply IH.
Qed.

Lemma strip_no_tag inside s : has_tag (strip inside s) = false.
Proof.
  revert inside. induction s as [|c s IH]; intros inside; simpl; [done|].
  destruct inside; [by destruct (is_gt c)|].
  destruct (is_lt c && has_gt s) eqn:Hm; [done|]. simpl. rewrite IH, orb_false_r.
  apply andb_false_iff in Hm as [Hc|Hs]; [by rewrite Hc|].
  by rewrite (strip_has_gt false s Hs), andb_false_r.
Qed.

Lemma strip_fixed s : has_tag s = false -> stripTags s = s.
Proof.
  unfold stripTags. induction s as [|c s IH]; simpl; [done|]. intros Hs.
  apply orb_false_iff in Hs as [Hm Hs]. rewrite Hm. f_equal. by apply IH.
Qed.

Lemma strip_length inside s : (String.length (strip inside s) <= String.length s)%nat.
Proof.
  revert inside. induction s as [|c s IH]; intros inside; simpl; [done|].
  destruct inside.
  - destruct (is_gt c); [specialize (IH false)|specialize (IH true)]; lia.
  - destruct (is_lt c && has_gt s); simpl; [specialize (IH true)|specialize (IH false)]; lia.
Qed.

Lemma append_String c a s : String c a ++ s = String c (a ++ s).
Proof. reflexivity. Qed.

(** Text without a [<] is passed through, whatever follows it. *)
Lemma strip_plain_prefix a s : has_lt a = false -> stripTags (a ++ s) = a ++ stripTags s.
Proof.
  unfold stripTags. induction a as [|c a IH]; [done|]. intros Ha. simpl in Ha.
  apply orb_false_iff in Ha as [Hc Ha]. rewrite !append_String. simpl.
  rewrite Hc. simpl. f_equal. by apply IH.
Qed.

Lemma after_gt_app t s :
  has_gt t = false -> after_gt (t ++ String (Ascii.ascii_of_nat 62) s) = Some s.
Proof.
  induction t as [|c t IH]; [done|]. intros Ht. simpl in Ht.
  apply orb_false_iff in Ht as [Hc Ht]. rewrite append_String. simpl.
  rewrite Hc. by apply IH.
Qed.

(** X1. The excerpt of a description has no tag left in it: no [<] that a
    [>] follows.  Stripping it again changes nothing, and it is never longer
    than the description. *)
Theorem excerpt_has_no_tag s :
  has_tag (stripTags s) = false
  /\ stripTags (stripTags s) = stripTags s
  /\ (String.length (stripTags s) <= String.length s)%nat.
Proof.
  split; [apply strip_no_tag|]. split; [|apply strip_length].
  apply strip_fixed, strip_no_tag.
Qed.

(** X2. The excerpt is the description itself exactly when the description
    has no tag: a lone [<] with no [>] after it, and any [>], are kept. *)
Theorem excerpt_unchanged_iff_no_tag s :
  stripTags s = s <-> has_tag s = false.
Proof.
  split; [|apply strip_fixed]. intros Hs. rewrite <- Hs. apply strip_no_tag.
Qed.

(** X3. Where text without a [<] is followed by a [<], characters other than
    [>], and a [>], the text is kept and everything from the [<] through the
    [>] is dropped, markup or not; the scan goes on after the [>]. *)
Theorem excerpt_drops_through_gt a t s :
  has_lt a = false ->
  has_gt t = false ->
  stripTags (a ++ String (Ascii.ascii_of_nat 60) (t ++ String (Ascii.ascii_of_nat 62) s))
  = a ++ stripTags s.
Proof.
  intros Ha Ht. rewrite strip_plain_prefix by done. f_equal.
  rewrite strip_lt. simpl. by rewrite after_gt_app.
Qed.

(** The comparison in [example_comparison] is taken for a tag. *)
Lemma excerpt_drops_through_gt_witness :
  stripTags ("is 1 " ++ String (Ascii.ascii_of_nat 60)
               (" 2 and 3 " ++ String (Ascii.ascii_of_nat 62) " 2 true?"))
  = "is 1 " ++ stripTags " 2 true?".
Proof.
  apply (excerpt_drops_through_gt "is 1 " " 2 and 3 " " 2 true?"); reflexivity.
Defined.

(** * More on the displayed order *)

Lemma strongly_sorted_filter {A} (R : relation A) (P : A -> Prop)
    `{!forall x, Decision (P x)} l :
  StronglySorted R l -> StronglySorted R (filter P l).
Proof.
  induction 1 as [|x l Hl IH Hall]; [constructor|].
  rewrite filter_cons. destruct (decide (P x)); [|done].
  constructor; [done|]. apply Forall_forall. intros y Hy.
  apply list_elem_of_filter in Hy as [_ Hy].
  rewrite Forall_forall in Hall. by apply Hall.
Qed.

(** Under a consistent comparator, filtering and sorting commute. *)
Lemma filter_sort_by_key {A} (key : A -> Z) (P : A -> Prop)
    `{!forall x, Decision (P x)} l :
  filter P (sort (by_key key) l) = sort (by_key key) (filter P l).
Proof.
  apply sort_unique.
  - apply StronglySorted_Sorted, strongly_sorted_filter.
    apply Sorted_StronglySorted; [apply descending_trans|apply sort_sorted].
  - intros v. rewrite !list_filter_filter. apply filter_sort.
    intros x y [Hx _] [Hy _]. unfold SortCompare, by_key. lia.
Qed.

Lemma order_default Date_getTime qs sortBy :
  sortBy <> "votes" -> order Date_getTime qs sortBy = order Date_getTime qs "newest".
Proof.
  intros Hne. apply sort_ext_in. intros a b _ _.
  by rewrite !compareFn_dates.
Qed.

Lemma order_removeQuestion Date_getTime qs sortBy id :
  sortBy = "votes" \/ (forall q, q ∈ qs -> Date_getTime (createdAt q) <> NaN) ->
  order Date_getTime (removeQuestion id qs) sortBy
  = removeQuestion id (order Date_getTime qs sortBy).
Proof.
  unfold removeQuestion. destruct (decide (sortBy = "votes")) as [->|Hne].
  - intros _. rewrite !order_votes. symmetry. apply filter_sort_by_key.
  - intros [?|Hvalid]; [done|].
    rewrite !order_dates; try done.
    + symmetry. apply filter_sort_by_key.
    + intros q Hq. apply list_elem_of_filter in Hq as [_ Hq]. by apply Hvalid.
Qed.

(** X4. The switch of the comparator has votes, activity and a default: a
    sort key that is none of the three tabs, like every key but votes, gives
    the order of the newest tab. *)
Theorem unknown_key_sorts_as_newest Date_getTime qs sortBy :
  sortBy <> "votes" ->
  order Date_getTime qs sortBy = order Date_getTime qs "newest".
Proof. apply order_default. Qed.

Lemma unknown_key_sorts_as_newest_witness :
  order example_getTime example_questions "oldest"
  = order example_getTime example_questions "newest".
Proof.
  apply (unknown_key_sorts_as_newest example_getTime example_questions "oldest").
  discriminate.
Defined.

(** X5. Removing a question and sorting commute: the order displayed after a
    removal is the order displayed before it with the removed question left
    out, nothing else moves.  This holds under the votes key, and under the
    date keys when every creation date is valid. *)
Theorem removal_keeps_displayed_order Date_getTime qs sortBy id :
  sortBy = "votes" \/ (forall q, q ∈ qs -> Date_getTime (createdAt q) <> NaN) ->
  order Date_getTime (removeQuestion id qs) sortBy
  = removeQuestion id (order Date_getTime qs sortBy).
Proof. apply order_removeQuestion. Qed.

Lemma removal_keeps_displayed_order_witness :
  order example_getTime (removeQuestion "q1" example_questions) "votes"
  = removeQuestion "q1" (order example_getTime example_questions "votes").
Proof.
  apply (removal_keeps_displayed_order example_getTime example_questions "votes" "q1").
  left. reflexivity.
Defined.

(** With an invalid date in the collection the commutation can fail: the
    comparator is then inconsistent, and where the sort places a question
    depends on which others are compared with it.  So it is on V8. *)
Example removal_with_invalid_date :
  let qs := [ example_question "a" 0 "2024-01-01T00:00:00.000Z";
              example_question "b" 0 "not a date";
              example_question "c" 0 "2024-01-02T00:00:00.000Z" ] in
  map _id <$> V8_sort (compareFn example_getTime "newest") (removeQuestion "b" qs)
    = Some ["c"; "a"]
  /\ map _id <$> (removeQuestion "b" <$> V8_sort (compareFn example_getTime "newest") qs)
    = Some ["a"; "c"].
Proof. split; reflexivity. Qed.

(** * Arrays are never changed in place *)

Section KeepsArrays.
Context {A B : Type}.

Lemma keeps_ret (a : A) : keeps_arrays (ret a).
Proof. by intros w l xs. Qed.

Lemma keeps_throw e : keeps_arrays (@throw A e).
Proof. by intros w l xs. Qed.

Lemma keeps_bind (m : M A) (k : A -> M B) :
  keeps_arrays m -> (forall a, keeps_arrays (k a)) -> keeps_arrays (bind m k).
Proof.
  intros Hm Hk w l xs Hl. specialize (Hm w l xs Hl). unfold exec, bind in *.
  destruct (m w) as [[a|e] w']; simpl in *; [|done]. by apply (Hk a w').
Qed.

Lemma keeps_try_catch (body : M A) (handler : Thrown -> M A) :
  keeps_arrays body -> (forall e, keeps_arrays (handler e)) ->
  keeps_arrays (try_catch body handler).
Proof.
  intros Hm Hk w l xs Hl. specialize (Hm w l xs Hl). unfold exec, try_catch in *.
  destruct (body w) as [[a|e] w']; simpl in *; [done|]. by apply (Hk e w').
Qed.

Lemma keeps_try_finally (body : M A) (fin : M unit) :
  keeps_arrays body -> keeps_arrays fin -> keeps_arrays (try_finally body fin).
Proof.
  intros Hm Hk w l xs Hl. specialize (Hm w l xs Hl). unfold exec, try_finally in *.
  destruct (body w) as [c w']; simpl in *.
  specialize (Hk w' l xs Hm). unfold exec in Hk.
  by destruct (fin w') as [[[]|e] w''].
Qed.
End KeepsArrays.

Lemma keeps_with_state {A} (a : A) f :
  keeps_arrays (fun w => (Normal a, with_state f w)).
Proof. by intros w l xs. Qed.

Lemma keeps_fetch env req : keeps_arrays (fetch env req).
Proof. intros w l xs Hl. unfold exec, fetch. by destruct (window_fetch env req). Qed.

Lemma keeps_response_json r : keeps_arrays (response_json r).
Proof. unfold response_json. destruct (json r); [apply keeps_throw|apply keeps_ret]. Qed.

Lemma keeps_confirm env prompt : keeps_arrays (confirm env prompt).
Proof. by intros w l xs. Qed.

Lemma keeps_toast t : keeps_arrays (toast t).
Proof. by intros w l xs. Qed.

Lemma keeps_Array_alloc xs : keeps_arrays (Array_alloc xs).
Proof. intros w l ys Hl. unfold exec. simpl. by apply lookup_app_l_Some. Qed.

Lemma keeps_Array_read l : keeps_arrays (Array_read l).
Proof. intros w l' xs Hl. unfold exec, Array_read. by destruct (heap w !! l). Qed.

Lemma keeps_Array_spread l : keeps_arrays (Array_spread l).
Proof.
  apply keeps_bind; [apply keeps_Array_read|]. intros xs. apply keeps_Array_alloc.
Qed.

Lemma keeps_Array_filter (P : Question -> Prop) `{!forall q, Decision (P q)} l :
  keeps_arrays (Array_filter P l).
Proof.
  apply keeps_bind; [apply keeps_Array_read|]. intros xs. apply keeps_Array_alloc.
Qed.

(** The sort of a render works on the array the spread has just made. *)
Lemma keeps_sortedQuestions Date_getTime s : keeps_arrays (sortedQuestions Date_getTime s).
Proof.
  intros w l xs Hl. unfold exec.
  destruct (heap w !! questions s) as [qs|] eqn:Hqs.
  - assert (sortedQuestions Date_getTime s w
            = (Normal (length (heap w)),
               with_heap (heap w ++ [order Date_getTime qs (sortBy s)]) w)) as ->.
    { unfold sortedQuestions, Array_spread, Array_sort, Array_read, Array_alloc, bind.
      rewrite Hqs. simpl. rewrite lookup_app_r by lia. rewrite Nat.sub_diag. simpl.
      unfold with_heap. simpl. f_equal. f_equal.
      rewrite insert_app_r_alt by lia. by rewrite Nat.sub_diag. }
    simpl. by apply lookup_app_l_Some.
  - unfold sortedQuestions, Array_spread, Array_read, bind. by rewrite Hqs.
Qed.

Ltac keeps_step :=
  first
    [ apply keeps_ret | apply keeps_throw | apply keeps_with_state
    | apply keeps_fetch | apply keeps_response_json | apply keeps_confirm
    | apply keeps_toast | apply keeps_Array_alloc | apply keeps_Array_read
    | apply keeps_Array_filter | apply keeps_sortedQuestions
    | apply keeps_bind; [|intros ?]
    | apply keeps_try_catch; [|intros ?]
    | apply keeps_try_finally
    | match goal with
      | |- keeps_arrays (if ?b then _ else _) => destruct b
      | |- keeps_arrays (match ?x with _ => _ end) => destruct x
      end ].

(** X10. Nothing the component runs changes an array that exists: the load,
    the two moderation handlers and a render leave the contents at every
    reference as they were.  New contents always go to a new array. *)
Theorem arrays_never_mutated env sc Date_getTime Date_toLocaleDateString user s a b :
  keeps_arrays (fetchQuestions env)
  /\ keeps_arrays (handleDeleteQuestion env sc a b)
  /\ keeps_arrays (handleBanUser env sc a b)
  /\ keeps_arrays (sortedQuestions Date_getTime s)
  /\ keeps_arrays (HomePage Date_getTime Date_toLocaleDateString user s).
Proof.
  repeat split.
  - unfold fetchQuestions, setIsLoading, setQuestions, setError. repeat keeps_step.
  - unfold handleDeleteQuestion, setQuestions. repeat keeps_step.
  - unfold handleBanUser. repeat keeps_step.
  - apply keeps_sortedQuestions.
  - unfold HomePage. repeat keeps_step.
Qed.

(** * What a render returns *)

Section ViewFacts.
Variable Date_getTime : string -> number.
Variable Date_toLocaleDateString : string -> string.

Lemma HomePage_run user w qs :
  heap w !! questions (state w) = Some qs ->
  HomePage Date_getTime Date_toLocaleDateString user (state w) w
  = (Normal
       match status (state w) with
       | Loading => Spinner
       | Errored => ErrorPage (default EmptyString (error (state w)))
       | Ready =>
           feed Date_toLocaleDateString user (sortBy (state w))
             (order Date_getTime qs (sortBy (state w)))
       end,
     with_heap (heap w ++ [order Date_getTime qs (sortBy (state w))]) w).
Proof.
  intros Hqs. unfold HomePage, bind. rewrite (sortedQuestions_run _ _ _ qs Hqs).
  unfold status. destruct (isLoading (state w)); [done|].
  assert (Array_read (length (heap w))
            (with_heap (heap w ++ [order Date_getTime qs (sortBy (state w))]) w)
          = (Normal (order Date_getTime qs (sortBy (state w))),
             with_heap (heap w ++ [order Date_getTime qs (sortBy (state w))]) w)) as Hread.
  { unfold Array_read. simpl. rewrite lookup_app_r by lia. by rewrite Nat.sub_diag. }
  destruct (error (state w)) as [msg|]; [|by rewrite Hread].
  destruct (truthy (Some msg)); [done|]. by rewrite Hread.
Qed.

Lemma feed_cards user tab sorted :
  cards_of (feed Date_toLocaleDateString user tab sorted)
  = map (card Date_toLocaleDateString user) sorted.
Proof. unfold feed. by destruct sorted. Qed.

Lemma card_key_map user qs :
  map card_key (map (card Date_toLocaleDateString user) qs) = map _id qs.
Proof. induction qs as [|q qs IH]; simpl; [done|]. by rewrite IH. Qed.

Lemma shows_controls_not_admin user : shows_controls user = negb (not_admin user).
Proof.
  destruct user as [u|]; simpl; [|done].
  destruct (decide (role u = "admin")) as [Hr|Hr].
  - rewrite bool_decide_eq_true_2 by done.
    rewrite bool_decide_eq_false_2; [done|]. by intros [].
  - rewrite bool_decide_eq_false_2 by done. by rewrite bool_decide_eq_true_2.
Qed.
End ViewFacts.

(** * The initial load, continued *)



(** X7. When the initial load fails with an error that has a non-empty
    message (a transport failure, a response that is not ok, or a body that
    does not parse) the next render is the error page showing that message.
    The toast shows the fixed text instead; the collection stays empty, and
    one request went out. *)
Theorem load_failure_shows_message env e msg :
  load_thrown (window_fetch env (list_request env)) = Some e ->
  message e = Some msg ->
  msg <> EmptyString ->
  let w' := exec (fetchQuestions env) initial_world in
  (forall Date_getTime Date_toLocaleDateString user,
     completion (HomePage Date_getTime Date_toLocaleDateString user (state w')) w'
     = Normal (ErrorPage msg))
  /\ status (state w') = Errored
  /\ toasts w' = [load_error_toast]
  /\ requests w' = [list_request env]
  /\ heap w' !! questions (state w') = Some [].
Proof.
  intros He Hmsg Hne w'. subst w'. unfold exec, completion.
  rewrite (fetchQuestions_failed env initial_world e He). simpl.
  assert (truthy (message e) = true) as Htruthy.
  { rewrite Hmsg. simpl. by apply bool_decide_eq_true. }
  split; [|unfold status; simpl; by rewrite Htruthy].
  intros Date_getTime Date_toLocaleDateString user.
  pose proof (HomePage_run Date_getTime Date_toLocaleDateString user
                (exec (fetchQuestions env) initial_world) []) as Hrun.
  unfold exec in Hrun. rewrite (fetchQuestions_failed env initial_world e He) in Hrun.
  simpl in Hrun. rewrite Hrun by done. simpl. unfold status. simpl.
  rewrite Htruthy. by rewrite Hmsg.
Qed.

(** A response that is not ok. *)
Lemma load_failure_shows_message_witness :
  let w' := exec (fetchQuestions example_env_unauthorized) initial_world in
  (forall Date_getTime Date_toLocaleDateString user,
     completion (HomePage Date_getTime Date_toLocaleDateString user (state w')) w'
     = Normal (ErrorPage "Failed to fetch questions"))
  /\ status (state w') = Errored
  /\ toasts w' = [load_error_toast]
  /\ requests w' = [list_request example_env_unauthorized]
  /\ heap w' !! questions (state w') = Some [].
Proof.
  apply (load_failure_shows_message example_env_unauthorized
           (Error "Failed to fetch questions") "Failed to fetch questions").
  - reflexivity.
  - reflexivity.
  - discriminate.
Defined.

(** * Moderation, continued *)

(** X8. Whatever the viewer, the answer to the confirmation and the answer of
    the service, a deletion changes nothing of the state but the reference to
    the collection, and a ban, also a successful one, changes nothing of the
    state and no array: the banned author's questions stay listed. *)
Theorem moderation_keeps_flags env sc w :
  (forall questionId questionTitle,
     let w' := exec (handleDeleteQuestion env sc questionId questionTitle) w in
     isLoading (state w') = isLoading (state w)
     /\ error (state w') = error (state w)
     /\ sortBy (state w') = sortBy (state w))
  /\
  (forall userId username,
     let w' := exec (handleBanUser env sc userId username) w in
     state w' = state w /\ heap w' = heap w).
Proof.
  split.
  - intros questionId questionTitle.
    unfold exec, handleDeleteQuestion, bind, confirm, try_catch, fetch.
    destruct (not_admin (scope_user sc)); [done|]. simpl.
    destruct (window_confirm env (delete_prompt questionTitle)); [|done]. simpl.
    destruct (window_fetch env (delete_request env questionId)) as [e|response]; [done|].
    destruct (ok response); [|done]. simpl.
    unfold Array_filter, Array_read, bind. simpl.
    by destruct (heap w !! scope_questions sc).
  - intros userId username.
    unfold exec, handleBanUser, bind, confirm, try_catch, fetch.
    destruct (not_admin (scope_user sc)); [done|]. simpl.
    destruct (window_confirm env (ban_prompt username)); [|done]. simpl.
    destruct (window_fetch env (ban_request env userId)) as [e|response]; [done|].
    by destruct (ok response).
Qed.

(** X9. A moderation handler sends at most one request per call, and it
    emits a toast exactly when it has sent one: either nothing goes out and
    nothing is shown, or one request goes out and one toast reports how it
    ended. *)
Theorem moderation_one_request_one_toast env sc w :
  (forall questionId questionTitle,
     let w' := exec (handleDeleteQuestion env sc questionId questionTitle) w in
     (requests w' = requests w /\ toasts w' = toasts w)
     \/ (requests w' = (requests w ++ [delete_request env questionId])%list
         /\ exists t, toasts w' = (toasts w ++ [t])%list))
  /\
  (forall userId username,
     let w' := exec (handleBanUser env sc userId username) w in
     (requests w' = requests w /\ toasts w' = toasts w)
     \/ (requests w' = (requests w ++ [ban_request env userId])%list
         /\ exists t, toasts w' = (toasts w ++ [t])%list)).
Proof.
  split.
  - intros questionId questionTitle w'. subst w'.
    destruct (not_admin (scope_user sc)) eqn:Hadmin.
    { left. unfold exec. by rewrite handleDeleteQuestion_not_admin. }
    destruct (window_confirm env (delete_prompt questionTitle)) eqn:Hyes.
    + right. by apply handleDeleteQuestion_confirmed.
    + left. unfold exec. by rewrite handleDeleteQuestion_declined.
  - intros userId username w'. subst w'.
    destruct (not_admin (scope_user sc)) eqn:Hadmin.
    { left. unfold exec. by rewrite handleBanUser_not_admin. }
    destruct (window_confirm env (ban_prompt username)) eqn:Hyes.
    + right. by apply handleBanUser_confirmed.
    + left. unfold exec. by rewrite handleBanUser_declined.
Qed.

Lemma removeQuestion_comm a b qs :
  removeQuestion a (removeQuestion b qs) = removeQuestion b (removeQuestion a qs).
Proof.
  unfold removeQuestion. rewrite !list_filter_filter.
  apply list_filter_iff. intros q. tauto.
Qed.

Lemma removeQuestion_elem_of id qs q :
  q ∈ removeQuestion id qs <-> _id q <> id /\ q ∈ qs.
Proof. unfold removeQuestion. apply (list_elem_of_filter (fun q => _id q <> id)). Qed.

(** X11. A handler removes from the array that its render saw.  When two
    deletions are started from the same render and both succeed, the second
    stores that array minus its own question over the result of the first:
    the collection ends as the original minus the second question only, and
    the question deleted first is listed again. *)
Theorem deletions_from_one_render env user w qs a ta ra b tb rb :
  heap w !! questions (state w) = Some qs ->
  is_admin user ->
  window_confirm env (delete_prompt ta) = true ->
  window_confirm env (delete_prompt tb) = true ->
  window_fetch env (delete_request env a) = FetchResolved ra -> ok ra = true ->
  window_fetch env (delete_request env b) = FetchResolved rb -> ok rb = true ->
  let sc := scope_of user w in
  let w1 := exec (handleDeleteQuestion env sc a ta) w in
  let w2 := exec (handleDeleteQuestion env sc b tb) w1 in
  heap w1 !! questions (state w1) = Some (removeQuestion a qs)
  /\ heap w2 !! questions (state w2) = Some (removeQuestion b qs)
  /\ (a <> b -> forall q, q ∈ qs -> _id q = a -> q ∈ removeQuestion b qs).
Proof.
  intros Hqs Hadmin Hya Hyb Hfa Hoka Hfb Hokb sc w1 w2.
  apply is_admin_not_admin in Hadmin.
  assert (w1 = logged
            {| questions := length (heap w); isLoading := isLoading (state w);
               error := error (state w); sortBy := sortBy (state w) |}
            (heap w ++ [removeQuestion a qs]) (delete_request env a)
            deleted_toast (delete_prompt ta) w) as Hw1.
  { subst w1 sc. unfold exec.
    by rewrite (handleDeleteQuestion_succeeded env (scope_of user w) w a ta ra qs). }
  split.
  { rewrite Hw1. simpl. rewrite lookup_app_r by lia. by rewrite Nat.sub_diag. }
  split.
  - subst w2. unfold exec.
    rewrite (handleDeleteQuestion_succeeded env sc w1 b tb rb qs); try done.
    + simpl. rewrite lookup_app_r by lia. by rewrite Nat.sub_diag.
    + rewrite Hw1. simpl. by apply lookup_app_l_Some.
  - intros Hab q Hq Hid. apply removeQuestion_elem_of. split; [congruence|done].
Qed.

Lemma deletions_from_one_render_witness :
  let sc := scope_of example_admin example_world in
  let w1 := exec (handleDeleteQuestion example_env sc "q1" "Qq1") example_world in
  let w2 := exec (handleDeleteQuestion example_env sc "q2" "Qq2") w1 in
  heap w1 !! questions (state w1) = Some (removeQuestion "q1" example_questions)
  /\ heap w2 !! questions (state w2) = Some (removeQuestion "q2" example_questions)
  /\ ("q1" <> "q2" -> forall q, q ∈ example_questions -> _id q = "q1" ->
      q ∈ removeQuestion "q2" example_questions).
Proof.
  apply (deletions_from_one_render example_env example_admin example_world
           example_questions "q1" "Qq1" example_ok "q2" "Qq2" example_ok);
    try reflexivity.
  exists {| role := "admin" |}. split; reflexivity.
Defined.

(** X12. When each deletion is started from the render that follows the one
    before, two successful deletions remove both questions, and the
    collection is the same in whichever order the two are made. *)
Theorem deletions_in_sequence_commute env user w qs a ta ra b tb rb :
  heap w !! questions (state w) = Some qs ->
  is_admin user ->
  window_confirm env (delete_prompt ta) = true ->
  window_confirm env (delete_prompt tb) = true ->
  window_fetch env (delete_request env a) = FetchResolved ra -> ok ra = true ->
  window_fetch env (delete_request env b) = FetchResolved rb -> ok rb = true ->
  let wa := exec (handleDeleteQuestion env (scope_of user w) a ta) w in
  let wab := exec (handleDeleteQuestion env (scope_of user wa) b tb) wa in
  let wb := exec (handleDeleteQuestion env (scope_of user w) b tb) w in
  let wba := exec (handleDeleteQuestion env (scope_of user wb) a ta) wb in
  heap wab !! questions (state wab) = Some (removeQuestion b (removeQuestion a qs))
  /\ heap wba !! questions (state wba) = heap wab !! questions (state wab)
  /\ (forall q, q ∈ removeQuestion b (removeQuestion a qs) <->
                q ∈ qs /\ _id q <> a /\ _id q <> b).
Proof.
  intros Hqs Hadmin Hya Hyb Hfa Hoka Hfb Hokb wa wab wb wba.
  apply is_admin_not_admin in Hadmin.
  assert (forall x tx rx y ty ry,
    window_confirm env (delete_prompt tx) = true ->
    window_confirm env (delete_prompt ty) = true ->
    window_fetch env (delete_request env x) = FetchResolved rx -> ok rx = true ->
    window_fetch env (delete_request env y) = FetchResolved ry -> ok ry = true ->
    let w1 := exec (handleDeleteQuestion env (scope_of user w) x tx) w in
    let w2 := exec (handleDeleteQuestion env (scope_of user w1) y ty) w1 in
    heap w2 !! questions (state w2) = Some (removeQuestion y (removeQuestion x qs)))
    as Hseq.
  { intros x tx rx y ty ry Hyx Hyy Hfx Hokx Hfy Hoky w1 w2.
    assert (heap w1 !! questions (state w1) = Some (removeQuestion x qs)) as Hw1.
    { subst w1. unfold exec.
      rewrite (handleDeleteQuestion_succeeded env (scope_of user w) w x tx rx qs) by done.
      simpl. rewrite lookup_app_r by lia. by rewrite Nat.sub_diag. }
    subst w2. unfold exec.
    rewrite (handleDeleteQuestion_succeeded env (scope_of user w1) w1 y ty ry
               (removeQuestion x qs)) by done.
    simpl. rewrite lookup_app_r by lia. by rewrite Nat.sub_diag. }
  split; [by apply (Hseq a ta ra b tb rb)|].
  split.
  - subst wab wba wa wb.
    rewrite (Hseq a ta ra b tb rb), (Hseq b tb rb a ta ra) by done.
    by rewrite removeQuestion_comm.
  - intros q. rewrite !removeQuestion_elem_of. tauto.
Qed.

Lemma deletions_in_sequence_commute_witness :
  let wa := exec (handleDeleteQuestion example_env (scope_of example_admin example_world)
                    "q1" "Qq1") example_world in
  let wab := exec (handleDeleteQuestion example_env (scope_of example_admin wa)
                     "q2" "Qq2") wa in
  let wb := exec (handleDeleteQuestion example_env (scope_of example_admin example_world)
                    "q2" "Qq2") example_world in
  let wba := exec (handleDeleteQuestion example_env (scope_of example_admin wb)
                     "q1" "Qq1") wb in
  heap wab !! questions (state wab)
    = Some (removeQuestion "q2" (removeQuestion "q1" example_questions))
  /\ heap wba !! questions (state wba) = heap wab !! questions (state wab)
  /\ (forall q, q ∈ removeQuestion "q2" (removeQuestion "q1" example_questions) <->
                q ∈ example_questions /\ _id q <> "q1" /\ _id q <> "q2").
Proof.
  apply (deletions_in_sequence_commute example_env example_admin example_world
           example_questions "q1" "Qq1" example_ok "q2" "Qq2" example_ok);
    try reflexivity.
  exists {| role := "admin" |}. split; reflexivity.
Defined.

(** * The cards and their buttons *)

Lemma handleDeleteQuestion_prompts env sc questionId questionTitle w :
  not_admin (scope_user sc) = false ->
  prompts (exec (handleDeleteQuestion env sc questionId questionTitle) w)
  = (prompts w ++ [delete_prompt questionTitle])%list.
Proof.
  unfold exec, handleDeleteQuestion, bind, confirm, try_catch, fetch. intros ->. simpl.
  destruct (window_confirm env (delete_prompt questionTitle)); [|done]. simpl.
  destruct (window_fetch env (delete_request env questionId)) as [e|response]; [done|].
  destruct (ok response); [|done]. simpl.
  unfold Array_filter, Array_read, bind. simpl.
  by destruct (heap w !! scope_questions sc).
Qed.

Lemma handleBanUser_prompts env sc userId username w :
  not_admin (scope_user sc) = false ->
  prompts (exec (handleBanUser env sc userId username) w)
  = (prompts w ++ [ban_prompt username])%list.
Proof.
  unfold exec, handleBanUser, bind, confirm, try_catch, fetch. intros ->. simpl.
  destruct (window_confirm env (ban_prompt username)); [|done]. simpl.
  destruct (window_fetch env (ban_request env userId)) as [e|response]; [done|].
  by destruct (ok response).
Qed.

Lemma card_filter Date_toLocaleDateString user id qs :
  map (card Date_toLocaleDateString user) (removeQuestion id qs)
  = filter (fun c => card_key c <> id) (map (card Date_toLocaleDateString user) qs).
Proof.
  unfold removeQuestion. induction qs as [|q qs IH]; [done|].
  rewrite filter_cons. simpl. rewrite filter_cons. simpl.
  destruct (decide (_id q <> id)); simpl; by rewrite IH.
Qed.

(** X13. The two buttons of a card and the guard of the handlers agree.  For
    a viewer who is no admin, or no viewer, no card of any render has a
    button.  For an admin every card has both, bound to the id and title of
    its own question and to the id and name of its author, and the call
    behind each button passes the guard of its handler: the confirmation is
    shown. *)
Theorem card_buttons_match_guard Date_getTime Date_toLocaleDateString env user w qs v :
  heap w !! questions (state w) = Some qs ->
  completion (HomePage Date_getTime Date_toLocaleDateString user (state w)) w = Normal v ->
  forall c, c ∈ cards_of v ->
    (~ is_admin user /\ card_delete c = None /\ card_ban c = None)
    \/ (is_admin user
        /\ exists q, q ∈ qs /\ card_key c = _id q
           /\ card_delete c = Some (_id q, title q)
           /\ card_ban c = Some (author_id (userId q), username (userId q))
           /\ prompts (exec (handleDeleteQuestion env (scope_of user w) (_id q) (title q)) w)
              = (prompts w ++ [delete_prompt (title q)])%list
           /\ prompts (exec (handleBanUser env (scope_of user w) (author_id (userId q))
                              (username (userId q))) w)
              = (prompts w ++ [ban_prompt (username (userId q))])%list).
Proof.
  intros Hqs Hv c Hc. unfold completion in Hv.
  rewrite (HomePage_run Date_getTime Date_toLocaleDateString user w qs Hqs) in Hv.
  simpl in Hv. injection Hv as <-.
  destruct (status (state w)); simpl in Hc; try by apply elem_of_nil in Hc.
  rewrite feed_cards in Hc. apply list_elem_of_fmap in Hc as (q & -> & Hq).
  apply (sort_elem_of _ q qs) in Hq. simpl.
  rewrite shows_controls_not_admin.
  destruct (not_admin user) eqn:Hadmin; simpl.
  - left. split; [by apply not_is_admin_not_admin|done].
  - right. split; [by apply is_admin_not_admin|].
    exists q. repeat (split; [done|]).
    split; [by apply handleDeleteQuestion_prompts|by apply handleBanUser_prompts].
Qed.

(** The first card of the example feed, for an admin. *)
Lemma card_buttons_match_guard_witness :
  let c := card example_toLocaleDateString example_admin
             (example_question "q2" 12 "2024-01-01T00:00:00.000Z") in
  (~ is_admin example_admin /\ card_delete c = None /\ card_ban c = None)
  \/ (is_admin example_admin
      /\ exists q, q ∈ example_questions /\ card_key c = _id q
         /\ card_delete c = Some (_id q, title q)
         /\ card_ban c = Some (author_id (userId q), username (userId q))
         /\ prompts (exec (handleDeleteQuestion example_env
                            (scope_of example_admin example_world) (_id q) (title q))
                       example_world)
            = (prompts example_world ++ [delete_prompt (title q)])%list
         /\ prompts (exec (handleBanUser example_env
                            (scope_of example_admin example_world)
                            (author_id (userId q)) (username (userId q))) example_world)
            = (prompts example_world ++ [ban_prompt (username (userId q))])%list).
Proof.
  apply (card_buttons_match_guard example_getTime example_toLocaleDateString
           example_env example_admin example_world example_questions
           (feed example_toLocaleDateString example_admin "votes"
              (order example_getTime example_questions "votes"))).
  - reflexivity.
  - reflexivity.
  - left.
Defined.

(** X14. In the ready state a render lists every question of the collection
    exactly once, as one card keyed by its id: the keys of the cards are a
    permutation of the ids.  So the empty notice is shown exactly when the
    collection is empty, and the keys are distinct when the ids are. *)
Theorem feed_lists_every_question_once Date_getTime Date_toLocaleDateString user w qs :
  heap w !! questions (state w) = Some qs ->
  status (state w) = Ready ->
  exists v,
    completion (HomePage Date_getTime Date_toLocaleDateString user (state w)) w = Normal v
    /\ map card_key (cards_of v) ≡ₚ map _id qs
    /\ length (cards_of v) = length qs
    /\ (v = EmptyFeed (sortBy (state w)) <-> qs = [])
    /\ (NoDup (map _id qs) -> NoDup (map card_key (cards_of v))).
Proof.
  intros Hqs Hready.
  exists (feed Date_toLocaleDateString user (sortBy (state w))
            (order Date_getTime qs (sortBy (state w)))).
  split.
  { unfold completion.
    rewrite (HomePage_run Date_getTime Date_toLocaleDateString user w qs Hqs).
    simpl. by rewrite Hready. }
  pose proof (order_perm Date_getTime qs (sortBy (state w))) as Hperm.
  rewrite feed_cards, card_key_map.
  assert (map _id (order Date_getTime qs (sortBy (state w))) ≡ₚ map _id qs) as Hids.
  { by apply Permutation_map. }
  split; [done|].
  split; [rewrite length_map; by apply Permutation_length|].
  split; [|by rewrite Hids].
  unfold feed. split.
  - destruct (order Date_getTime qs (sortBy (state w))) as [|q sorted] eqn:Hsorted;
      simpl; [|done].
    intros _. by apply Permutation_nil.
  - intros ->. done.
Qed.

Lemma feed_lists_every_question_once_witness :
  exists v,
    completion (HomePage example_getTime example_toLocaleDateString example_member
                  (state example_world)) example_world = Normal v
    /\ map card_key (cards_of v) ≡ₚ map _id example_questions
    /\ length (cards_of v) = length example_questions
    /\ (v = EmptyFeed (sortBy (state example_world)) <-> example_questions = [])
    /\ (NoDup (map _id example_questions) -> NoDup (map card_key (cards_of v))).
Proof.
  apply (feed_lists_every_question_once example_getTime example_toLocaleDateString
           example_member example_world example_questions);
    reflexivity.
Defined.

(** X15. From the delete button of a card to the next render: when the
    viewer confirms and the service accepts, the next render lists the cards
    of this one without the cards of the deleted id, the others in the order
    they had.  This holds under the votes key, and under the date keys when
    every creation date is valid. *)
Theorem delete_click_updates_view Date_getTime Date_toLocaleDateString
    env user w qs c id questionTitle response :
  heap w !! questions (state w) = Some qs ->
  status (state w) = Ready ->
  sortBy (state w) = "votes"
  \/ (forall q, q ∈ qs -> Date_getTime (createdAt q) <> NaN) ->
  let v := feed Date_toLocaleDateString user (sortBy (state w))
             (order Date_getTime qs (sortBy (state w))) in
  c ∈ cards_of v ->
  card_delete c = Some (id, questionTitle) ->
  window_confirm env (delete_prompt questionTitle) = true ->
  window_fetch env (delete_request env id) = FetchResolved response ->
  ok response = true ->
  let w' := exec (handleDeleteQuestion env (scope_of user w) id questionTitle) w in
  completion (HomePage Date_getTime Date_toLocaleDateString user (state w)) w = Normal v
  /\ card_key c = id
  /\ exists v',
       completion (HomePage Date_getTime Date_toLocaleDateString user (state w')) w'
         = Normal v'
       /\ cards_of v' = filter (fun c' => card_key c' <> id) (cards_of v)
       /\ c ∉ cards_of v'.
Proof.
  intros Hqs Hready Hkey v Hc Hdel Hyes Hfetch Hok w'.
  split.
  { unfold completion.
    rewrite (HomePage_run Date_getTime Date_toLocaleDateString user w qs Hqs).
    simpl. by rewrite Hready. }
  subst v. rewrite feed_cards in Hc. apply list_elem_of_fmap in Hc as (q & -> & Hq).
  simpl in Hdel. destruct (shows_controls user) eqn:Hshow; [|done].
  injection Hdel as <- <-. split; [done|].
  rewrite shows_controls_not_admin in Hshow. apply negb_true_iff in Hshow.
  assert (w' = logged
            {| questions := length (heap w); isLoading := isLoading (state w);
               error := error (state w); sortBy := sortBy (state w) |}
            (heap w ++ [removeQuestion (_id q) qs]) (delete_request env (_id q))
            deleted_toast (delete_prompt (title q)) w) as Hw'.
  { subst w'. unfold exec.
    by rewrite (handleDeleteQuestion_succeeded env (scope_of user w) w
                  (_id q) (title q) response qs). }
  assert (heap w' !! questions (state w') = Some (removeQuestion (_id q) qs)) as Hqs'.
  { rewrite Hw'. simpl. rewrite lookup_app_r by lia. by rewrite Nat.sub_diag. }
  assert (status (state w') = Ready) as Hready'.
  { rewrite Hw'. by destruct w as [[]]. }
  assert (sortBy (state w') = sortBy (state w)) as Hsort by (by rewrite Hw').
  exists (feed Date_toLocaleDateString user (sortBy (state w))
            (order Date_getTime (removeQuestion (_id q) qs) (sortBy (state w)))).
  split.
  { unfold completion.
    rewrite (HomePage_run Date_getTime Date_toLocaleDateString user w' _ Hqs').
    simpl. by rewrite Hready', Hsort. }
  rewrite !feed_cards, order_removeQuestion by done.
  split; [apply card_filter|].
  rewrite card_filter. intros Hin.
  by apply list_elem_of_filter in Hin as [Hne _].
Qed.

Lemma delete_click_updates_view_witness :
  let c := card example_toLocaleDateString example_admin
             (example_question "q1" 5 "2024-01-02T00:00:00.000Z") in
  let v := feed example_toLocaleDateString example_admin (sortBy (state example_world))
             (order example_getTime example_questions (sortBy (state example_world))) in
  let w' := exec (handleDeleteQuestion example_env (scope_of example_admin example_world)
                    "q1" "Qq1") example_world in
  completion (HomePage example_getTime example_toLocaleDateString example_admin
                (state example_world)) example_world = Normal v
  /\ card_key c = "q1"
  /\ exists v',
       completion (HomePage example_getTime example_toLocaleDateString example_admin
                     (state w')) w' = Normal v'
       /\ cards_of v' = filter (fun c' => card_key c' <> "q1") (cards_of v)
       /\ c ∉ cards_of v'.
Proof.
  apply (delete_click_updates_view example_getTime example_toLocaleDateString
           example_env example_admin example_world
           example_questions
           (card example_toLocaleDateString example_admin
              (example_question "q1" 5 "2024-01-02T00:00:00.000Z"))
           "q1" "Qq1" example_ok).
  - reflexivity.
  - reflexivity.
  - left. reflexivity.
  - right. left.
  - reflexivity.
  - reflexivity.
  - reflexivity.
  - reflexivity.
Defined.
